(** * hono-turnstile: the loader singleton, the widget handle and the
    response poll of [src/lib.tsx], embedded and verified.

    The file follows the source top-down:
    - [Js]      values the code tests for truthiness, and results of calls
                into the external widget library (which may throw);
    - [Loader]  the module-level bindings [turnstileState], [turnstileLoad],
                [turnstileLoadPromise] and [ensureTurnstile], with the
                effects of the components that wait for them;
    - [Widget]  one mounted component: its refs, its style state, the
                [renderWidget] effect and the imperative handle;
    - [Poll]    [getResponsePromise], run on the timer queue of the
                host;
    - [Element] the props [Turnstile] hands to [Container], and
                [Component] of [src/container.tsx];
    - [Fixtures] concrete libraries, props and component states.

    The properties follow, one module per model: [LoaderFacts],
    [WidgetFacts], [PollFacts], then what holds across the operations
    of a component ([ComponentFacts]), of the components waiting for
    the library ([WaiterFacts]), of the timers of a poll and of the
    poll after an operation of the handle ([TimerFacts]), and of the
    element created ([ElementFacts]). What [./utils] and [./types]
    declare is not among the sources: constants and tables of [./utils]
    are parameters of the sections that use them. *)

From stdpp Require Import gmap strings list pretty.

(* ===================================================================== *)
(** ** JavaScript values used by the component                            *)
(* ===================================================================== *)

Module Js.

(** [string | undefined | null], the type of [widgetId.current] and of
    what the external [render] and [getResponse] return. *)
Inductive Str :=
| Null
| Undefined
| Lit (s : string).

(** The one-character string that is a double quote. *)
Definition dquote : string := String (Ascii.ascii_of_nat 34) EmptyString.

(** JavaScript truthiness on that type: only a non-empty string passes
    [if (x)], [!x] and [x && ...]. *)
Definition truthy (v : Str) : bool :=
  match v with
  | Lit s => negb (String.eqb s "")
  | _ => false
  end.

(** A call into code we do not own either returns or throws. *)
Inductive Result (A : Type) :=
| Returns (a : A)
| Throws (error : string).
Arguments Returns {A} a.
Arguments Throws {A} error.

#[global] Instance Str_eq_dec : EqDecision Str.
Proof. solve_decision. Defined.

End Js.

(* ===================================================================== *)
(** ** The process-wide loader (lib.tsx, lines 22-44) and its consumers   *)
(* ===================================================================== *)

Module Loader.

(** [let turnstileState: 'unloaded' | 'loading' | 'ready'] *)
Inductive TurnstileState := unloaded | loading | ready.

#[global] Instance TurnstileState_eq_dec : EqDecision TurnstileState.
Proof. solve_decision. Defined.

(** Promise objects live on a heap and are passed by reference. *)
Definition PromiseRef := nat.

(** The continuation a component registers in [waitForTurnstile]:
    [.then(() => setTurnstileLoaded(true))], for component [inst]. *)
Inductive Reaction := SetTurnstileLoaded (inst : nat).

Inductive Promise :=
| Pending (reactions : list Reaction)
| Fulfilled
| Rejected.

(** The only function this module stores on [window]: the closure built
    in [ensureTurnstile], which captures [onLoadCallbackName]. *)
Inductive GlobalFn := OnLoad (onLoadCallbackName : string).

#[global] Instance Reaction_eq_dec : EqDecision Reaction.
Proof. solve_decision. Defined.
#[global] Instance Promise_eq_dec : EqDecision Promise.
Proof. solve_decision. Defined.
#[global] Instance GlobalFn_eq_dec : EqDecision GlobalFn.
Proof. solve_decision. Defined.

(** The page: the module's mutable bindings and the parts of the host
    they touch. [turnstileLoad] holds the resolvers of one promise
    ([None] while the binding is still [undefined]). Of the components,
    the page keeps who ran [setTurnstileLoaded(true)], by the way it
    came about: [turnstileLoaded] holds the components whose reaction
    [() => setTurnstileLoaded(true)] (line 152) has run, those told by
    the promise; [fallbackLoaded] those whose fallback effect (lines
    326-330) set the flag. *)
Record Page := mkPage {
  turnstileState : TurnstileState;
  turnstileLoad : option PromiseRef;
  heap : list Promise;
  window : gmap string GlobalFn;
  jobs : list Reaction;
  turnstileLoaded : gset nat;
  fallbackLoaded : gset nat;
}.

Definition set_turnstileState (s : TurnstileState) (p : Page) : Page :=
  mkPage s (turnstileLoad p) (heap p) (window p) (jobs p)
         (turnstileLoaded p) (fallbackLoaded p).
Definition set_turnstileLoad (l : option PromiseRef) (p : Page) : Page :=
  mkPage (turnstileState p) l (heap p) (window p) (jobs p)
         (turnstileLoaded p) (fallbackLoaded p).
Definition set_heap (h : list Promise) (p : Page) : Page :=
  mkPage (turnstileState p) (turnstileLoad p) h (window p) (jobs p)
         (turnstileLoaded p) (fallbackLoaded p).
Definition set_window (w : gmap string GlobalFn) (p : Page) : Page :=
  mkPage (turnstileState p) (turnstileLoad p) (heap p) w (jobs p)
         (turnstileLoaded p) (fallbackLoaded p).
Definition set_jobs (j : list Reaction) (p : Page) : Page :=
  mkPage (turnstileState p) (turnstileLoad p) (heap p) (window p) j
         (turnstileLoaded p) (fallbackLoaded p).
Definition set_turnstileLoaded (l : gset nat) (p : Page) : Page :=
  mkPage (turnstileState p) (turnstileLoad p) (heap p) (window p) (jobs p) l
         (fallbackLoaded p).
Definition set_fallbackLoaded (l : gset nat) (p : Page) : Page :=
  mkPage (turnstileState p) (turnstileLoad p) (heap p) (window p) (jobs p)
         (turnstileLoaded p) l.

(** The state [turnstileLoaded] of component [inst]: [false] at mount,
    [true] once either way has set it. *)
Definition loaded (inst : nat) (p : Page) : bool :=
  bool_decide (inst ∈ turnstileLoaded p ∪ fallbackLoaded p).

(** [resolve()] of the promise at [r]: a pending promise becomes
    fulfilled and its reactions are queued; a settled one ignores it. *)
Definition resolve (r : PromiseRef) (p : Page) : Page :=
  match heap p !! r with
  | Some (Pending rs) => set_jobs (jobs p ++ rs) (set_heap (<[r := Fulfilled]> (heap p)) p)
  | _ => p
  end.

(** [promise.then(k)]: queued at once on a fulfilled promise, stored on a
    pending one, dropped on a rejected one (only [.catch] would see it). *)
Definition then_ (r : PromiseRef) (k : Reaction) (p : Page) : Page :=
  match heap p !! r with
  | Some (Pending rs) => set_heap (<[r := Pending (rs ++ [k])]> (heap p)) p
  | Some Fulfilled => set_jobs (jobs p ++ [k]) p
  | _ => p
  end.

(** [new Promise(executor)]: allocate, then run the executor at once. *)
Definition new_Promise (executor : PromiseRef -> Page -> Page) (p : Page)
  : Page * PromiseRef :=
  let r := length (heap p) in
  (executor r (set_heap (heap p ++ [Pending []]) p), r).

(** The executor of [turnstileLoadPromise] (lines 29-32):
    [turnstileLoad = { resolve, reject }]
    [if (turnstileState === 'ready') resolve(undefined)]. *)
Definition turnstileLoadPromise_executor (r : PromiseRef) (p : Page) : Page :=
  let p := set_turnstileLoad (Some r) p in
  if decide (turnstileState p = ready) then resolve r p else p.

Definition construct_turnstileLoadPromise (p : Page) : Page * PromiseRef :=
  new_Promise turnstileLoadPromise_executor p.

(** Evaluation of the module's top level (lines 22-32). *)
Definition module_init : Page * PromiseRef :=
  construct_turnstileLoadPromise (mkPage unloaded None [] ∅ [] ∅ ∅).

Definition page0 : Page := fst module_init.
(** [const turnstileLoadPromise] *)
Definition turnstileLoadPromise : PromiseRef := snd module_init.

(** Body of the closure stored on [window] (lines 37-41). With
    [turnstileLoad] still [undefined] the first statement throws a
    TypeError and nothing changes. *)
Definition onLoad_body (onLoadCallbackName : string) (p : Page) : Page :=
  match turnstileLoad p with
  | Some r =>
      let p := resolve r p in
      let p := set_turnstileState ready p in
      set_window (delete onLoadCallbackName (window p)) p
  | None => p
  end.

Section WithUtils.
(** [DEFAULT_ONLOAD_NAME] comes from [./utils], which is not part of the
    sources at hand: a parameter. *)
Variable DEFAULT_ONLOAD_NAME : string.

(** [ensureTurnstile] (lines 34-44). The argument is [None] when the
    caller passes nothing (or [undefined]). *)
Definition ensureTurnstile (arg : option string) (p : Page) : Page * PromiseRef :=
  let onLoadCallbackName := default DEFAULT_ONLOAD_NAME arg in
  let p :=
    if decide (turnstileState p = unloaded) then
      let p := set_turnstileState loading p in
      set_window (<[onLoadCallbackName := OnLoad onLoadCallbackName]> (window p)) p
    else p in
  (p, turnstileLoadPromise).

(** What can happen to the loader: a component calls [ensureTurnstile],
    the injected script calls a global by name, a consumer chains
    [.then] on the value [ensureTurnstile] returned, the host runs the
    next queued job, the fallback effect of a component runs. That
    effect reads what [useObserveScript] reported and [window.turnstile],
    which are not the loader's: they come with the event. *)
Inductive Event :=
| CallEnsureTurnstile (arg : option string)
| ScriptCalls (name : string)
| AwaitLoaded (arg : option string) (inst : nat)
| RunJob
| FallbackEffect (inst : nat) (scriptLoaded has_turnstile : bool).

Definition run_reaction (k : Reaction) (p : Page) : Page :=
  match k with
  | SetTurnstileLoaded inst => set_turnstileLoaded ({[inst]} ∪ turnstileLoaded p) p
  end.

Definition step (e : Event) (p : Page) : Page :=
  match e with
  | CallEnsureTurnstile arg => fst (ensureTurnstile arg p)
  | ScriptCalls name =>
      match window p !! name with
      | Some (OnLoad n) => onLoad_body n p
      | None => p
      end
  | AwaitLoaded arg inst =>
      (* waitForTurnstile (lines 149-155) *)
      if decide (turnstileState p = ready) then p
      else
        let '(p, r) := ensureTurnstile arg p in
        then_ r (SetTurnstileLoaded inst) p
  | RunJob =>
      match jobs p with
      | k :: rest => run_reaction k (set_jobs rest p)
      | [] => p
      end
  | FallbackEffect inst scriptLoaded has_turnstile =>
      (* lines 326-330 *)
      if scriptLoaded && negb (loaded inst p) && has_turnstile
      then set_fallbackLoaded ({[inst]} ∪ fallbackLoaded p) p
      else p
  end.

Definition run (evs : list Event) (p : Page) : Page :=
  foldl (fun p e => step e p) p evs.

End WithUtils.

End Loader.

(* ===================================================================== *)
(** ** One mounted component (lib.tsx, lines 46-359)                      *)
(* ===================================================================== *)

Module Widget.
Import Js.

(** *** Props *)

(** Modelled from the spec: the declarations of [./types] are not among
    the sources at hand. Its section 6 gives the values: size
    [normal | compact | flexible | invisible], execution mode
    [render | execute], appearance mode
    [always | execute | interaction-only]. *)
Inductive Size := normal | compact | flexible | invisible.
Inductive Execution := render_mode | execute_mode.
Inductive Appearance := always | on_execute | interaction_only.

(** Keys of [CONTAINER_STYLE_SET]: the four sizes and [interactionOnly]. *)
Inductive StyleKey := BySize (s : Size) | interactionOnly.

(** A style object, as CSS declarations. *)
Definition Style := list (string * string).

#[global] Instance Size_eq_dec : EqDecision Size.
Proof. solve_decision. Defined.
#[global] Instance Execution_eq_dec : EqDecision Execution.
Proof. solve_decision. Defined.
#[global] Instance Appearance_eq_dec : EqDecision Appearance.
Proof. solve_decision. Defined.

(** The fields of [props.options] the component reads (lines 65-128),
    [None] for a field left out. Texts are strings, the tab index and
    the retry interval numbers. *)
Record Options := mkOptions {
  o_size : option Size;
  o_execution : option Execution;
  o_appearance : option Appearance;
  o_action : option string;
  o_cData : option string;
  o_theme : option string;
  o_language : option string;
  o_tabIndex : option nat;
  o_responseField : option bool;
  o_responseFieldName : option string;
  o_retry : option string;
  o_retryInterval : option N;
  o_refreshExpired : option string;
}.

(** The props the modelled code consults. *)
Record Props := mkProps {
  siteKey : string;
  options : Options;
  (** whether an [onWidgetLoad] hook was passed *)
  onWidgetLoad : bool;
  (** whether an [onSuccess] hook was passed *)
  onSuccess : bool;
}.

(** [x || d] on an optional string: [undefined] and [""] give [d]. *)
Definition or_str (x : option string) (d : string) : string :=
  match x with
  | Some s => if String.eqb s "" then d else s
  | None => d
  end.

(** [x || d] on an optional number: [undefined] and [0] give [d]. *)
Definition or_num (x : option N) (d : N) : N :=
  match x with
  | Some (Npos n) => Npos n
  | _ => d
  end.

(** [const widgetSize = options.size || 'normal'] *)
Definition widgetSize (p : Props) : Size := default normal (o_size (options p)).

(** The object handed to the external [render] and [execute]
    (the [useMemo] of lines 86-128; hooks that are only forwarded are
    left out, [callback] is {!successCallback} below). *)
Record RenderOptions := mkRenderOptions {
  r_sitekey : string;
  r_action : option string;
  r_cData : option string;
  r_theme : string;
  r_language : string;
  r_tabindex : option nat;
  r_response_field : option bool;
  r_response_field_name : option string;
  r_size : string;
  r_retry : string;
  r_retry_interval : N;
  r_refresh_expired : string;
  r_execution : Execution;
  r_appearance : Appearance;
}.

(** *** The external widget library *)

(** DOM nodes, by identity. *)
Definition Node := nat.

(** [window.turnstile], with the six methods the component calls: each
    may be missing ([turnstile?.reset]), and a call may throw. *)
Record Turnstile := mkTurnstile {
  t_render : option (Node -> RenderOptions -> Result Str);
  t_remove : option (Str -> Result unit);
  t_reset : option (Str -> Result unit);
  t_execute : option (Node -> RenderOptions -> Result unit);
  t_getResponse : option (Str -> Result Str);
  t_isExpired : option (Str -> Result bool);
}.

(** What an operation runs against: the library as the handle captured
    it ([const { turnstile } = window], line 183), the library as
    [window] holds it now, and the props. *)
Record Env := mkEnv {
  turnstile : option Turnstile;
  window_turnstile : option Turnstile;
  props : Props;
}.

(** *** State of the component *)

Record Inst := mkInst {
  containerRef : option Node;
  widgetId : Str;
  widgetSolved : bool;
  containerStyle : Style;
  turnstileLoaded : bool;
  (** the [cancelled] variable of every [renderWidget] closure created
      so far, by creation order *)
  cancelled : list bool;
}.

Definition set_widgetId (v : Str) (i : Inst) : Inst :=
  mkInst (containerRef i) v (widgetSolved i) (containerStyle i) (turnstileLoaded i) (cancelled i).
Definition set_widgetSolved (b : bool) (i : Inst) : Inst :=
  mkInst (containerRef i) (widgetId i) b (containerStyle i) (turnstileLoaded i) (cancelled i).
Definition set_containerStyle (s : Style) (i : Inst) : Inst :=
  mkInst (containerRef i) (widgetId i) (widgetSolved i) s (turnstileLoaded i) (cancelled i).
Definition set_cancelled (c : list bool) (i : Inst) : Inst :=
  mkInst (containerRef i) (widgetId i) (widgetSolved i) (containerStyle i) (turnstileLoaded i) c.

(** What an operation does that the outside can see. *)
Inductive Action :=
| Warn (message : string)
| CallRender (container : Node) (config : RenderOptions)
| CallRemove (id : Str)
| CallReset (id : Str)
| CallExecute (container : Node) (config : RenderOptions)
| CallGetResponse (id : Str)
| CallIsExpired (id : Str)
| HookWidgetLoad (id : Str)
| HookSuccess (token : string).

(** *** A state-and-exception monad for the handle's methods *)

Definition M (A : Type) : Type := Inst -> Inst * list Action * Result A.

Definition ret {A} (a : A) : M A := fun i => (i, [], Returns a).

Definition bind {A B} (m : M A) (k : A -> M B) : M B :=
  fun i =>
    match m i with
    | (i1, l1, Returns a) =>
        match k a i1 with
        | (i2, l2, r) => (i2, l1 ++ l2, r)
        end
    | (i1, l1, Throws e) => (i1, l1, Throws e)
    end.

#[global] Instance M_ret : MRet M := @ret.
#[global] Instance M_bind : MBind M := fun A B k m => bind m k.

Definition get : M Inst := fun i => (i, [], Returns i).
Definition modify (f : Inst -> Inst) : M unit := fun i => (f i, [], Returns tt).
Definition emit (a : Action) : M unit := fun i => (i, [a], Returns tt).
Definition throw {A} (e : string) : M A := fun i => (i, [], Throws e).

(** [try { m } catch (error) { h error }] *)
Definition try_catch {A} (m : M A) (h : string -> M A) : M A :=
  fun i =>
    match m i with
    | (i1, l1, Throws e) =>
        match h e i1 with
        | (i2, l2, r) => (i2, l1 ++ l2, r)
        end
    | done => done
    end.

(** A call into the library: recorded, then its result. *)
Definition external {A} (a : Action) (r : Result A) : M A :=
  emit a ;;
  match r with
  | Returns v => ret v
  | Throws e => throw e
  end.

(** Calling a method of an object that may be [undefined], or a method
    that is not there, is a TypeError. *)
Definition method {A F} (lib : option Turnstile) (sel : Turnstile -> option F)
  (call : F -> M A) : M A :=
  match lib with
  | Some t =>
      match sel t with
      | Some f => call f
      | None => throw "TypeError"
      end
  | None => throw "TypeError"
  end.

(** [turnstile?.m] used as a condition. *)
Definition has {F} (lib : option Turnstile) (sel : Turnstile -> option F) : bool :=
  match lib with
  | Some t => bool_decide (is_Some (sel t))
  | None => false
  end.

Definition state {A} (o : Inst * list Action * Result A) : Inst := o.1.1.
Definition actions {A} (o : Inst * list Action * Result A) : list Action := o.1.2.
Definition result {A} (o : Inst * list Action * Result A) : Result A := o.2.

Section WithUtils.
(** [CONTAINER_STYLE_SET] and [getTurnstileSizeOpts] come from
    [./utils], which is not part of the sources at hand: parameters. *)
Variable CONTAINER_STYLE_SET : StyleKey -> Style.
Variable getTurnstileSizeOpts : Size -> string.

(** [renderConfig] (lines 86-128). *)
Definition renderConfig (p : Props) : RenderOptions :=
  let o := options p in
  {| r_sitekey := siteKey p;
     r_action := o_action o;
     r_cData := o_cData o;
     r_theme := or_str (o_theme o) "auto";
     r_language := or_str (o_language o) "auto";
     r_tabindex := o_tabIndex o;
     r_response_field := o_responseField o;
     r_response_field_name := o_responseFieldName o;
     r_size := getTurnstileSizeOpts (widgetSize p);
     r_retry := or_str (o_retry o) "auto";
     r_retry_interval := or_num (o_retryInterval o) 8000%N;
     r_refresh_expired := or_str (o_refreshExpired o) "auto";
     r_execution := default render_mode (o_execution o);
     r_appearance := default always (o_appearance o) |}.

(** The style chosen at mount and by the "Update style" effect
    (lines 67-73 and 332-341). *)
Definition styleFor (p : Props) : Style :=
  if decide (o_execution (options p) = Some execute_mode) then
    CONTAINER_STYLE_SET (BySize invisible)
  else if decide (default always (o_appearance (options p)) = interaction_only) then
    CONTAINER_STYLE_SET interactionOnly
  else CONTAINER_STYLE_SET (BySize (widgetSize p)).

Definition mount (p : Props) : Inst :=
  mkInst None Null false (styleFor p) false [].

Definition setContainerStyle (s : Style) : M unit := modify (set_containerStyle s).

(** [checkIfTurnstileLoaded] (lines 130-132); [window] itself is there. *)
Definition checkIfTurnstileLoaded (e : Env) : bool :=
  bool_decide (is_Some (window_turnstile e)).

(** [callback] of [renderConfig] (lines 91-94). *)
Definition successCallback (e : Env) (token : string) : M unit :=
  modify (set_widgetSolved true) ;;
  if onSuccess (props e) then emit (HookSuccess token) else ret tt.

(** [if (widgetId.current) onWidgetLoad?.(widgetId.current)] *)
Definition notifyWidgetLoad (e : Env) : M unit :=
  i ← get;
  if truthy (widgetId i) && onWidgetLoad (props e)
  then emit (HookWidgetLoad (widgetId i))
  else ret tt.

(** *** The [renderWidget] effect (lines 157-178) *)

(** The closure [render] of the effect run whose [cancelled] variable
    is cell [k] (lines 163-168). *)
Definition renderWidget_render (e : Env) (k : nat) : M unit :=
  i ← get;
  match containerRef i with
  | Some node =>
      if default false (cancelled i !! k) then ret tt
      else
        id ← method (window_turnstile e) t_render
                (fun f => external (CallRender node (renderConfig (props e)))
                                   (f node (renderConfig (props e))));
        modify (set_widgetId id) ;;
        notifyWidgetLoad e
  | None => ret tt
  end.

(** The effect body. It returns the cell of its [cancelled] variable
    when it returns a cleanup. [render] is an [async] function with no
    [await] in it: its body runs inside the call [render()], and what it
    throws rejects the promise that call returns instead of leaving the
    effect. *)
Definition renderWidget (e : Env) : M (option nat) :=
  i ← get;
  match containerRef i with
  | None => ret None
  | Some _ =>
      if negb (turnstileLoaded i) then ret None
      else
        let k := length (cancelled i) in
        modify (set_cancelled (cancelled i ++ [false])) ;;
        try_catch (renderWidget_render e k) (fun _ => ret tt) ;;
        ret (Some k)
  end.

(** The cleanup the effect returned (lines 172-175). *)
Definition renderWidget_cleanup (e : Env) (k : nat) : M unit :=
  modify (fun i => set_cancelled (<[k := true]> (cancelled i)) i) ;;
  i ← get;
  if truthy (widgetId i)
  then method (window_turnstile e) t_remove
         (fun f => external (CallRemove (widgetId i)) (f (widgetId i)))
  else ret tt.

(** *** The imperative handle (lines 180-323) *)

Definition getResponse (e : Env) : M Str :=
  i ← get;
  if negb (has (turnstile e) t_getResponse) || negb (truthy (widgetId i))
     || negb (checkIfTurnstileLoaded e)
  then emit (Warn "Turnstile has not been loaded") ;; ret Undefined
  else method (turnstile e) t_getResponse
         (fun f => external (CallGetResponse (widgetId i)) (f (widgetId i))).

Definition reset (e : Env) : M unit :=
  i ← get;
  if negb (has (turnstile e) t_reset) || negb (truthy (widgetId i))
     || negb (checkIfTurnstileLoaded e)
  then emit (Warn "Turnstile has not been loaded")
  else
    (if decide (o_execution (options (props e)) = Some execute_mode)
     then setContainerStyle (CONTAINER_STYLE_SET (BySize invisible))
     else ret tt) ;;
    try_catch
      (modify (set_widgetSolved false) ;;
       method (turnstile e) t_reset
         (fun f => external (CallReset (widgetId i)) (f (widgetId i))))
      (fun error => emit (Warn "Failed to reset Turnstile widget [object Object]")).

Definition remove (e : Env) : M unit :=
  i ← get;
  if negb (has (turnstile e) t_remove) || negb (truthy (widgetId i))
     || negb (checkIfTurnstileLoaded e)
  then emit (Warn "Turnstile has not been loaded")
  else
    setContainerStyle (CONTAINER_STYLE_SET (BySize invisible)) ;;
    modify (set_widgetSolved false) ;;
    method (turnstile e) t_remove
      (fun f => external (CallRemove (widgetId i)) (f (widgetId i))) ;;
    modify (set_widgetId Null).

Definition render (e : Env) : M Str :=
  i ← get;
  match containerRef i with
  | Some node =>
      if negb (has (turnstile e) t_render) || negb (checkIfTurnstileLoaded e)
         || truthy (widgetId i)
      then emit (Warn "Turnstile has not been loaded or container not found") ;;
           ret Undefined
      else
        id ← method (turnstile e) t_render
                (fun f => external (CallRender node (renderConfig (props e)))
                                   (f node (renderConfig (props e))));
        modify (set_widgetId id) ;;
        notifyWidgetLoad e ;;
        (if decide (o_execution (options (props e)) = Some execute_mode)
         then ret tt
         else setContainerStyle (CONTAINER_STYLE_SET (BySize (widgetSize (props e))))) ;;
        ret id
  | None =>
      emit (Warn "Turnstile has not been loaded or container not found") ;;
      ret Undefined
  end.

Definition execute (e : Env) : M unit :=
  if decide (o_execution (options (props e)) = Some execute_mode) then
    i ← get;
    match containerRef i with
    | Some node =>
        if negb (has (turnstile e) t_execute) || negb (truthy (widgetId i))
           || negb (checkIfTurnstileLoaded e)
        then emit (Warn "Turnstile has not been loaded or container not found")
        else
          method (turnstile e) t_execute
            (fun f => external (CallExecute node (renderConfig (props e)))
                               (f node (renderConfig (props e)))) ;;
          setContainerStyle (CONTAINER_STYLE_SET (BySize (widgetSize (props e))))
    | None => emit (Warn "Turnstile has not been loaded or container not found")
    end
  else
    emit (Warn ("Execution mode is not set to " ++ dquote ++ "execute" ++ dquote)).

Definition isExpired (e : Env) : M (option bool) :=
  i ← get;
  if negb (has (turnstile e) t_isExpired) || negb (truthy (widgetId i))
     || negb (checkIfTurnstileLoaded e)
  then emit (Warn "Turnstile has not been loaded") ;; ret None
  else
    b ← method (turnstile e) t_isExpired
           (fun f => external (CallIsExpired (widgetId i)) (f (widgetId i)));
    ret (Some b).

(** *** Everything that can happen to a mounted component *)

Inductive Op :=
| Attach (container : option Node)
| Loaded
| UpdateStyle
| Effect
| Cleanup (k : nat)
| Success (token : string)
| GetResponse
| Reset
| Remove
| Render
| Execute
| IsExpired.

Definition void {A} (m : M A) : M unit := m ;; ret tt.

(** React sets [containerRef.current]; [setTurnstileLoaded(true)], from
    [waitForTurnstile] or from the fallback effect of lines 326-330.
    [UpdateStyle] is the effect of lines 332-341. *)
Definition attach (n : option Node) (i : Inst) : Inst :=
  mkInst n (widgetId i) (widgetSolved i) (containerStyle i) (turnstileLoaded i) (cancelled i).
Definition setTurnstileLoaded (i : Inst) : Inst :=
  mkInst (containerRef i) (widgetId i) (widgetSolved i) (containerStyle i) true (cancelled i).

Definition exec (e : Env) (op : Op) : M unit :=
  match op with
  | Attach n => modify (attach n)
  | Loaded => modify setTurnstileLoaded
  | UpdateStyle => setContainerStyle (styleFor (props e))
  | Effect => void (renderWidget e)
  | Cleanup k => renderWidget_cleanup e k
  | Success token => successCallback e token
  | GetResponse => void (getResponse e)
  | Reset => reset e
  | Remove => remove e
  | Render => void (render e)
  | Execute => execute e
  | IsExpired => void (isExpired e)
  end.

(** A history: each operation with the environment it ran in. What an
    operation throws goes to its caller and the component lives on. *)
Definition exec_all (h : list (Env * Op)) (i : Inst) : Inst :=
  foldl (fun i '(e, op) => state (exec e op i)) i h.

End WithUtils.

End Widget.

(* ===================================================================== *)
(** ** [getResponsePromise] on a timer queue (lib.tsx, lines 194-229)     *)
(* ===================================================================== *)

Module Poll.
Import Js Widget.

(** State of the promise [getResponsePromise] returns. *)
Inductive Settlement :=
| Pending
| Resolved (token : Str)
| Rejected (message : string).

#[global] Instance Settlement_eq_dec : EqDecision Settlement.
Proof. solve_decision. Defined.

(** The two functions the routine hands to [setTimeout]: the time-out
    handler (lines 217-220) and the [resolve] of the pause promise, after
    which the [await]ing [checkLoaded] goes on to call itself. *)
Inductive Callback := OnTimeout | Resume.

#[global] Instance Callback_eq_dec : EqDecision Callback.
Proof. solve_decision. Defined.

Record Timer := mkTimer {
  timer_id : nat;
  due : nat;
  callback : Callback;
}.

Inductive Event :=
| Checked (at_ms : nat)
| SetTimeout (id : nat) (cb : Callback) (delay : nat)
| ClearTimeout (id : nat)
| GetResponse (id : Str)
| ConsoleWarn (message : string)
| CallResolve (token : Str)
| CallReject (message : string).

(** The host's timers and the variables the executor's closures share.
    Times are milliseconds since the call. *)
Record Loop := mkLoop {
  now : nat;
  timers : list Timer;
  next_id : nat;
  timeoutId : option nat;
  promise : Settlement;
  trace : list Event;
}.

Definition log (ev : Event) (s : Loop) : Loop :=
  mkLoop (now s) (timers s) (next_id s) (timeoutId s) (promise s) (trace s ++ [ev]).

(** The longest delay the host's timers take: [2 ^ 31 - 1] ms. *)
Definition TIMEOUT_MAX : N := 2147483647.

(** The delay the host gives a timer asked for [ms] milliseconds. The
    timers of Node keep a delay from [1] to [TIMEOUT_MAX] and take any
    other as [1]
    ([if (!(after >= 1 && after <= TIMEOUT_MAX)) after = 1]): no timer
    fires in the turn that armed it, and a delay too long for the host
    is a short one. *)
Definition host_delay (ms : nat) : nat :=
  if (1 <=? ms) && (N.of_nat ms <=? TIMEOUT_MAX)%N then ms else 1.

(** [setTimeout(cb, delay)]: arms a timer, due after the delay the host
    gives it, and returns its id. *)
Definition setTimeout (cb : Callback) (delay : nat) (s : Loop) : Loop * nat :=
  let id := next_id s in
  (mkLoop (now s) (timers s ++ [mkTimer id (now s + host_delay delay) cb]) (S id)
          (timeoutId s) (promise s) (trace s ++ [SetTimeout id cb delay]), id).

(** [clearTimeout(id)]: disarms it if it is still armed. *)
Definition clearTimeout (id : nat) (s : Loop) : Loop :=
  mkLoop (now s) (filter (fun t => timer_id t ≠ id) (timers s)) (next_id s)
         (timeoutId s) (promise s) (trace s ++ [ClearTimeout id]).

(** [if (timeoutId) clearTimeout(timeoutId)]: a timer id is a number,
    truthy unless it is [0]. *)
Definition clear_if_set (s : Loop) : Loop :=
  match timeoutId s with
  | Some (S n) => clearTimeout (S n) s
  | _ => s
  end.

(** [resolve] and [reject] of the returned promise: the first call
    settles it, later calls change nothing. *)
Definition settle (o : Settlement) (s : Loop) : Loop :=
  match promise s with
  | Pending => mkLoop (now s) (timers s) (next_id s) (timeoutId s) o (trace s)
  | _ => s
  end.
Definition resolve (token : Str) (s : Loop) : Loop :=
  settle (Resolved token) (log (CallResolve token) s).
Definition reject (message : string) (s : Loop) : Loop :=
  settle (Rejected message) (log (CallReject message) s).

(** The time-out handler (lines 217-220). *)
Definition onTimeout (s : Loop) : Loop :=
  reject "Timeout" (clear_if_set s).

Section WithWorld.
(** The component's refs and [window.turnstile] as they stand at each
    instant; the success callback, [reset] and [remove] change them
    between two checks. *)
Variable world : nat -> Inst * option Turnstile.
Variables timeout retry : nat.

(** The condition of line 199. *)
Definition solved_now (t : nat) : bool :=
  widgetSolved (world t).1 && bool_decide (is_Some (world t).2)
  && truthy (widgetId (world t).1).

(** [window.turnstile.getResponse(widgetId.current)] at instant [t]. *)
Definition getResponse_now (t : nat) : Result Str :=
  match (world t).2 with
  | Some lib =>
      match t_getResponse lib with
      | Some f => f (widgetId (world t).1)
      | None => Throws "TypeError"
      end
  | None => Throws "TypeError"
  end.

(** One run of [checkLoaded] up to its first pause (lines 198-224). *)
Definition checkLoaded (s : Loop) : Loop :=
  let s := log (Checked (now s)) s in
  if solved_now (now s) then
    let s := log (GetResponse (widgetId (world (now s)).1)) s in
    match getResponse_now (now s) with
    | Returns token =>
        let s := clear_if_set s in
        if truthy token then resolve token s
        else reject "No response received" s
    | Throws error =>
        let s := clear_if_set s in
        let s := log (ConsoleWarn "Failed to get response") s in
        reject "Failed to get response" s
    end
  else
    let s :=
      match timeoutId s with
      | Some (S _) => s
      | _ =>
          let '(s, id) := setTimeout OnTimeout timeout s in
          mkLoop (now s) (timers s) (next_id s) (Some id) (promise s) (trace s)
      end in
    fst (setTimeout Resume retry s).

Definition run_callback (cb : Callback) (s : Loop) : Loop :=
  match cb with
  | OnTimeout => onTimeout s
  | Resume => checkLoaded s
  end.

(** The host fires the armed timer that is due first; of two timers due
    at the same instant, the one armed first. [timers] is in arming
    order. *)
Fixpoint next_timer (ts : list Timer) : option Timer :=
  match ts with
  | [] => None
  | t :: rest =>
      match next_timer rest with
      | Some u => if due u <? due t then Some u else Some t
      | None => Some t
      end
  end.

(** One turn of the event loop: nothing happens when no timer is armed. *)
Definition step (s : Loop) : Loop :=
  match next_timer (timers s) with
  | Some t =>
      let s := mkLoop (Nat.max (now s) (due t))
                      (filter (fun u => timer_id u ≠ timer_id t) (timers s))
                      (next_id s) (timeoutId s) (promise s) (trace s) in
      run_callback (callback t) s
  | None => s
  end.

(** The call itself: the executor runs [checkLoaded()] once, with no
    timer armed; the host numbers timers from [1]. *)
Definition start : Loop := checkLoaded (mkLoop 0 [] 1 None Pending []).

(** The state after [n] turns of the event loop. *)
Definition run (n : nat) : Loop := Nat.iter n step start.

End WithWorld.

(** [getResponsePromise(timeout = 30000, retry = 100)]: the loop after
    [n] turns, with the defaults filled in for arguments left out. *)
Definition getResponsePromise (world : nat → Inst * option Turnstile)
  (timeout retry : option nat) (n : nat) : Loop :=
  run world (default (30 * 1000) timeout) (default 100 retry) n.

Section Settling.
Variable world : nat → Inst * option Turnstile.
Variables timeout retry : nat.
Local Abbreviation run := (run world timeout retry).

(** The promise has been settled with [o] at instant [t]: some turn of
    the event loop finds it settled with the clock at [t], no earlier
    turn did, and no later turn changes it. *)
Definition settles (o : Settlement) (t : nat) : Prop :=
  o ≠ Pending ∧
  ∃ n, promise (run n) = o ∧ now (run n) = t
       ∧ (∀ m, m < n → promise (run m) = Pending)
       ∧ (∀ m, n ≤ m → promise (run m) = o).

End Settling.

End Poll.

(* ===================================================================== *)
(** ** The element returned: props, spread and [Container]                *)
(* ===================================================================== *)

Module Element.
Import Js Widget.

(** Values a prop can hold. An object is its own enumerable entries,
    read by key: the list keeps them as they were written and does not
    give the order JavaScript enumerates them in, which lists
    integer-like keys first. A function is known by identity only. A
    string is a sequence of one-byte characters, as ASCII text is. *)
Inductive Val :=
| VUndefined
| VNull
| VBool (b : bool)
| VNum (z : Z)
| VStr (s : string)
| VFun (n : nat)
| VObj (entries : Entries)
with Entries :=
| ENil
| ECons (k : string) (v : Val) (rest : Entries).

(** A props object, by key. *)
Abbreviation Object := (gmap string Val).

(** Truthiness, as [||] sees it. *)
Definition truthy_val (v : Val) : bool :=
  match v with
  | VUndefined | VNull => false
  | VBool b => b
  | VNum z => negb (Z.eqb z 0)
  | VStr s => negb (String.eqb s "")
  | VFun _ | VObj _ => true
  end.

(** [obj.key]: [undefined] when the key is missing. *)
Definition prop (o : Object) (k : string) : Val := default VUndefined (o !! k).

(** [{ k = d } = obj]: the default stands in for [undefined] only. *)
Definition prop_or (o : Object) (k : string) (d : Val) : Val :=
  match prop o k with
  | VUndefined => d
  | v => v
  end.

(** [a || b] *)
Definition or_else (a b : Val) : Val := if truthy_val a then a else b.

(** [{ k1, k2, ...rest } = obj]: what is left for [rest]. *)
Definition rest_without (ks : list string) (o : Object) : Object :=
  foldr delete o ks.

Fixpoint chars_from (i : nat) (s : string) : Entries :=
  match s with
  | EmptyString => ENil
  | String c s' => ECons (pretty i) (VStr (String c EmptyString)) (chars_from (S i) s')
  end.

(** What [{...v}] copies: the entries of an object, the characters of a
    string by index, nothing for the other values. *)
Definition own (v : Val) : Entries :=
  match v with
  | VObj entries => entries
  | VStr s => chars_from 0 s
  | _ => ENil
  end.

(** The value under a key. *)
Fixpoint entry (k : string) (l : Entries) : option Val :=
  match l with
  | ENil => None
  | ECons k' v l' => if String.eqb k k' then Some v else entry k l'
  end.

Fixpoint keys (l : Entries) : list string :=
  match l with
  | ENil => []
  | ECons k _ l' => k :: keys l'
  end.

(** Writing one entry into an object: a key that is there takes the
    new value, a new key is added. *)
Fixpoint put (k : string) (v : Val) (l : Entries) : Entries :=
  match l with
  | ENil => ECons k v ENil
  | ECons k' v' l' =>
      if String.eqb k k' then ECons k' v l' else ECons k' v' (put k v l')
  end.

(** Copying the entries of [src] into [acc], one after the other: of
    two entries of [src] under one key the later one stays. *)
Fixpoint assign (acc src : Entries) : Entries :=
  match src with
  | ENil => acc
  | ECons k v rest => assign (put k v acc) rest
  end.

(** [{...a, ...b}] *)
Definition spread2 (a b : Val) : Entries :=
  assign (assign ENil (own a)) (own b).

(** A style of the component as a value. *)
Definition style_val (s : Style) : Val :=
  VObj (foldr (fun kv acc => ECons kv.1 (VStr kv.2) acc) ENil s).

(** *** container.tsx *)

(** What [<Element {...props} ref={ref} />] is built from. *)
Record Jsx := mkJsx {
  tag : Val;
  attrs : Object;
}.

(** [Component] (container.tsx, lines 7-12). *)
Definition Component (props : Object) (ref : Val) : Jsx :=
  let Element := prop_or props "as" (VStr "div") in
  let props := rest_without ["as"] props in
  mkJsx Element (<["ref" := ref]> props).

(** *** What [Turnstile] returns (lib.tsx, lines 47-64 and 349-357) *)

(** The props [Turnstile] takes out by name (lines 48-62). *)
Definition named : list string :=
  ["scriptOptions"; "options"; "siteKey"; "onWidgetLoad"; "onSuccess";
   "onExpire"; "onError"; "onBeforeInteractive"; "onAfterInteractive";
   "onUnsupported"; "onLoadScript"; "id"; "style"; "as"; "injectScript"].

Section WithUtils.
(** [DEFAULT_CONTAINER_ID] comes from [./utils]: a parameter. *)
Variable DEFAULT_CONTAINER_ID : string.

(** The props handed to [Container] (lines 349-357):
    [ref={containerRef} as={as} id={containerId}
     style={{ ...containerStyle, ...style }} {...divProps}]. *)
Definition container_props (props : Object) (containerRef : Val)
  (containerStyle : Style) : Object :=
  let id := prop props "id" in
  let style := prop props "style" in
  let as_ := prop_or props "as" (VStr "div") in
  let divProps := rest_without named props in
  let containerId := or_else id (VStr DEFAULT_CONTAINER_ID) in
  divProps ∪
  <["ref" := containerRef]>
    (<["as" := as_]>
       (<["id" := containerId]>
          (<["style" := VObj (spread2 (style_val containerStyle) style)]> ∅))).

End WithUtils.
End Element.

(* ===================================================================== *)
(** ** Concrete libraries, props and states to run the model on           *)
(* ===================================================================== *)

Module Fixtures.
Import Js Widget.

Definition styles (k : StyleKey) : Style :=
  match k with
  | BySize normal => [("width", "300px"); ("height", "65px")]
  | BySize compact => [("width", "150px"); ("height", "140px")]
  | BySize flexible => [("width", "100%"); ("height", "65px")]
  | BySize invisible => [("width", "0"); ("height", "0"); ("overflow", "hidden")]
  | interactionOnly => [("width", "fit-content"); ("height", "auto")]
  end.

Definition sizeOpts (s : Size) : string :=
  match s with
  | normal => "normal"
  | compact => "compact"
  | flexible => "flexible"
  | invisible => "invisible"
  end.

(** A library whose [render] answers [rendered], whose [getResponse]
    answers [response], and whose other calls answer [called]. *)
Definition lib (rendered response : Result Str) (called : Result unit) : Turnstile :=
  {| t_render := Some (fun _ _ => rendered);
     t_remove := Some (fun _ => called);
     t_reset := Some (fun _ => called);
     t_execute := Some (fun _ _ => called);
     t_getResponse := Some (fun _ => response);
     t_isExpired := Some (fun _ => Returns false) |}.

Definition opts (x : option Execution) : Options :=
  mkOptions None x None None None None None None None None None None None.

(** Props with both hooks passed. *)
Definition hooked (x : option Execution) : Props :=
  mkProps "site-key" (opts x) true true.

Definition env (l : Turnstile) (x : option Execution) : Env :=
  mkEnv (Some l) (Some l) (hooked x).

(** Mounted, container attached, library loaded, no widget yet. *)
Definition bare (x : option Execution) : Inst :=
  mkInst (Some 7) Null false (styleFor styles (hooked x)) true [].

(** As [bare], holding a solved widget ["w1"] shown at its size. *)
Definition active : Inst :=
  mkInst (Some 7) (Lit "w1") true (styles (BySize normal)) true [false].

(** A component holding widget ["w1"] with the library on [window],
    whose success callback fires at instant [t0] and whose
    [getResponse] answers [response]. *)
Definition solved_from (t0 : nat) (response : Result Str)
  : nat → Inst * option Turnstile :=
  fun t =>
    (mkInst (Some 7) (Lit "w1") (t0 <=? t) (styles (BySize normal)) true [false],
     Some (lib (Returns (Lit "w1")) response (Returns tt))).

(** The same component when the challenge is never solved. *)
Definition never_solved : nat → Inst * option Turnstile :=
  fun t =>
    (mkInst (Some 7) (Lit "w1") false (styles (BySize normal)) true [false],
     Some (lib (Returns (Lit "w1")) (Returns (Lit "")) (Returns tt))).

End Fixtures.

(* ===================================================================== *)
(** * Properties                                                          *)
(* ===================================================================== *)

Module JsFacts.
Import Js.

Lemma truthy_Lit v : truthy v = true → ∃ s, v = Lit s ∧ s ≠ "".
Proof.
  destruct v as [| |s]; simpl; try discriminate.
  intros H. exists s. split; [reflexivity|].
  intros ->. discriminate.
Qed.

Lemma truthy_Null : truthy Null = false.
Proof. reflexivity. Qed.

End JsFacts.

(* ===================================================================== *)
(** ** The loader                                                         *)
(* ===================================================================== *)

Module LoaderFacts.
Import Loader.

(** The moves the status may make in one step. *)
Definition allowed (a b : TurnstileState) : Prop :=
  a = b ∨ (a = unloaded ∧ b = loading) ∨ (a = loading ∧ b = ready).

(** What holds of every page the loader can reach: the resolvers kept
    in [turnstileLoad] are those of [turnstileLoadPromise], and status,
    promise and [window] slot move together. *)
Definition consistent (p : Page) : Prop :=
  turnstileLoad p = Some turnstileLoadPromise ∧
  match turnstileState p with
  | unloaded =>
      window p = ∅ ∧ ∃ rs, heap p !! turnstileLoadPromise = Some (Pending rs)
  | loading =>
      (∃ name, window p = {[ name := OnLoad name ]}) ∧
      ∃ rs, heap p !! turnstileLoadPromise = Some (Pending rs)
  | ready =>
      window p = ∅ ∧ heap p !! turnstileLoadPromise = Some Fulfilled
  end.

Lemma module_init_pending :
  heap page0 !! turnstileLoadPromise = Some (Pending []) ∧
  turnstileState page0 = unloaded ∧ window page0 = ∅.
Proof. repeat split. Qed.

Lemma consistent_page0 : consistent page0.
Proof. split; [reflexivity|]. simpl. split; [reflexivity|]. by exists []. Qed.

Section WithUtils.
Variable D : string.

Lemma ensureTurnstile_returns arg p :
  (ensureTurnstile D arg p).2 = turnstileLoadPromise.
Proof. reflexivity. Qed.

Lemma ensureTurnstile_unloaded arg p :
  turnstileState p = unloaded →
  (ensureTurnstile D arg p).1 =
    set_window (<[default D arg := OnLoad (default D arg)]> (window p))
               (set_turnstileState loading p).
Proof. intros H. unfold ensureTurnstile. simpl. by rewrite decide_True. Qed.

Lemma ensureTurnstile_requested arg p :
  turnstileState p ≠ unloaded → (ensureTurnstile D arg p).1 = p.
Proof. intros H. unfold ensureTurnstile. simpl. by rewrite decide_False. Qed.

Lemma ensureTurnstile_consistent arg p :
  consistent p → consistent (ensureTurnstile D arg p).1.
Proof.
  intros [Hl Hs].
  destruct (decide (turnstileState p = unloaded)) as [Hu|Hu].
  - rewrite ensureTurnstile_unloaded by done.
    rewrite Hu in Hs. destruct Hs as [Hw Hp].
    split; [done|]. simpl. split; [|done].
    exists (default D arg). by rewrite Hw.
  - rewrite ensureTurnstile_requested by done. by split.
Qed.

Lemma onLoad_body_loading name p :
  consistent p → window p = {[ name := OnLoad name ]} →
  turnstileState p = loading →
  let q := onLoad_body name p in
  turnstileState q = ready ∧ window q = ∅ ∧
  heap q !! turnstileLoadPromise = Some Fulfilled ∧
  turnstileLoad q = Some turnstileLoadPromise.
Proof.
  intros [Hl Hs] Hw Hst. rewrite Hst in Hs. destruct Hs as [_ [rs Hp]].
  unfold onLoad_body. rewrite Hl. unfold resolve. rewrite Hp. simpl.
  rewrite Hw, delete_singleton_eq.
  repeat split; [|done].
  apply list_lookup_insert_eq. by eapply lookup_lt_Some.
Qed.

Lemma step_AwaitLoaded arg inst p :
  step D (AwaitLoaded arg inst) p =
    if decide (turnstileState p = ready) then p
    else then_ turnstileLoadPromise (SetTurnstileLoaded inst)
               (ensureTurnstile D arg p).1.
Proof. reflexivity. Qed.

(** The fallback effect changes nothing the loader reads. *)
Lemma step_FallbackEffect inst sl ht p :
  turnstileState (step D (FallbackEffect inst sl ht) p) = turnstileState p ∧
  turnstileLoad (step D (FallbackEffect inst sl ht) p) = turnstileLoad p ∧
  heap (step D (FallbackEffect inst sl ht) p) = heap p ∧
  window (step D (FallbackEffect inst sl ht) p) = window p ∧
  jobs (step D (FallbackEffect inst sl ht) p) = jobs p ∧
  turnstileLoaded (step D (FallbackEffect inst sl ht) p) = turnstileLoaded p.
Proof. simpl. by destruct (_ && _). Qed.

Lemma then_turnstileState r k p :
  turnstileState (then_ r k p) = turnstileState p.
Proof. unfold then_. by destruct (heap p !! r) as [[]|]. Qed.

Lemma ensureTurnstile_not_ready arg p :
  turnstileState p ≠ ready → turnstileState (ensureTurnstile D arg p).1 ≠ ready.
Proof.
  intros Hr. destruct (decide (turnstileState p = unloaded)).
  - by rewrite ensureTurnstile_unloaded.
  - by rewrite ensureTurnstile_requested.
Qed.

Lemma then_consistent k p :
  consistent p → turnstileState p ≠ ready →
  consistent (then_ turnstileLoadPromise k p).
Proof.
  intros [Hl Hs] Hr. unfold then_.
  destruct (turnstileState p) eqn:Hst; [| |done];
    destruct Hs as [Hw [rs Hp]]; rewrite Hp;
    (split; [done|]); simpl; rewrite Hst; (split; [done|]);
    exists (rs ++ [k]);
    apply list_lookup_insert_eq; by eapply lookup_lt_Some.
Qed.

Lemma step_consistent e p : consistent p → consistent (step D e p).
Proof.
  intros Hc. destruct e as [arg|name|arg inst| |inst sl ht].
  - by apply ensureTurnstile_consistent.
  - simpl.
    destruct (window p !! name) as [[n]|] eqn:Hn; [|done].
    pose proof Hc as [Hl Hs].
    destruct (turnstileState p) eqn:Hst.
    + destruct Hs as [Hw _]. rewrite Hw in Hn. by rewrite lookup_empty in Hn.
    + destruct Hs as [[m Hw] _].
      assert (n = name ∧ m = name) as [-> ->].
      { rewrite Hw in Hn. apply lookup_singleton_Some in Hn as [-> Hn].
        by injection Hn as ->. }
      destruct (onLoad_body_loading name p Hc Hw Hst) as (H1 & H2 & H3 & H4).
      split; [done|]. by rewrite H1.
    + destruct Hs as [Hw _]. rewrite Hw in Hn. by rewrite lookup_empty in Hn.
  - rewrite step_AwaitLoaded.
    destruct (decide (turnstileState p = ready)) as [|Hr]; [done|].
    apply then_consistent.
    + by apply ensureTurnstile_consistent.
    + by apply ensureTurnstile_not_ready.
  - simpl. destruct (jobs p) as [|[i] rest]; [done|]. destruct Hc as [Hl Hs].
    split; [done|]. simpl. by destruct (turnstileState p).
  - destruct (step_FallbackEffect inst sl ht p) as (E1 & E2 & E3 & E4 & _).
    unfold consistent. by rewrite E1, E2, E3, E4.
Qed.

Lemma run_snoc evs e p : run D (evs ++ [e]) p = step D e (run D evs p).
Proof. unfold run. by rewrite foldl_app. Qed.

Lemma run_consistent evs : consistent (run D evs page0).
Proof.
  induction evs as [|e evs IH] using rev_ind.
  - apply consistent_page0.
  - rewrite run_snoc. by apply step_consistent.
Qed.

Lemma step_allowed e p :
  consistent p → allowed (turnstileState p) (turnstileState (step D e p)).
Proof.
  intros Hc. destruct e as [arg|name|arg inst| |inst sl ht].
  - change (step D (CallEnsureTurnstile arg) p) with (ensureTurnstile D arg p).1.
    destruct (decide (turnstileState p = unloaded)) as [Hu|Hu].
    + rewrite ensureTurnstile_unloaded by done. right; left. by split.
    + rewrite ensureTurnstile_requested by done. by left.
  - simpl. destruct (window p !! name) as [[n]|] eqn:Hn; [|by left].
    pose proof Hc as [Hl Hs].
    destruct (turnstileState p) eqn:Hst.
    + destruct Hs as [Hw _]. rewrite Hw in Hn. by rewrite lookup_empty in Hn.
    + right; right. split; [done|].
      unfold onLoad_body. by rewrite Hl.
    + destruct Hs as [Hw _]. rewrite Hw in Hn. by rewrite lookup_empty in Hn.
  - rewrite step_AwaitLoaded.
    destruct (decide (turnstileState p = ready)) as [|Hr]; [by left|].
    rewrite then_turnstileState.
    destruct (decide (turnstileState p = unloaded)) as [Hu|Hu].
    + rewrite ensureTurnstile_unloaded by done. right; left. by split.
    + rewrite ensureTurnstile_requested by done. by left.
  - simpl. destruct (jobs p) as [|[i] rest]; by left.
  - destruct (step_FallbackEffect inst sl ht p) as (-> & _). by left.
Qed.

(** A step that fulfils the shared promise is the global callback
    running in status [loading]. *)
Lemma step_fulfils e p :
  consistent p →
  heap p !! turnstileLoadPromise ≠ Some Fulfilled →
  heap (step D e p) !! turnstileLoadPromise = Some Fulfilled →
  ∃ name, e = ScriptCalls name ∧ window p !! name = Some (OnLoad name) ∧
          turnstileState p = loading ∧ turnstileState (step D e p) = ready.
Proof.
  intros Hc Hn Hf.
  pose proof (step_consistent e p Hc) as Hc'.
  destruct e as [arg|name|arg inst| |inst sl ht].
  - exfalso.
    change (step D (CallEnsureTurnstile arg) p) with (ensureTurnstile D arg p).1 in Hf.
    destruct (decide (turnstileState p = unloaded)) as [Hu|Hu].
    + rewrite ensureTurnstile_unloaded in Hf by done. by simpl in Hf.
    + rewrite ensureTurnstile_requested in Hf by done. done.
  - simpl in *. destruct (window p !! name) as [[n]|] eqn:Hw; [|done].
    pose proof Hc as [Hl Hs].
    destruct (turnstileState p) eqn:Hst.
    + destruct Hs as [Hw' _]. rewrite Hw' in Hw. by rewrite lookup_empty in Hw.
    + destruct Hs as [[m Hw'] _].
      assert (n = name) as ->.
      { rewrite Hw' in Hw. apply lookup_singleton_Some in Hw as [-> Hw].
        by injection Hw as ->. }
      exists name. repeat split; try done.
      unfold onLoad_body. by rewrite Hl.
    + by destruct Hs as [_ Hp].
  - exfalso. rewrite step_AwaitLoaded in Hf, Hc'.
    destruct (decide (turnstileState p = ready)) as [|Hr]; [done|].
    destruct Hc' as [_ Hs']. rewrite then_turnstileState in Hs'.
    pose proof (ensureTurnstile_not_ready arg p Hr) as Hr'.
    destruct (turnstileState (ensureTurnstile D arg p).1); [| |done];
      destruct Hs' as [_ [rs Hp]]; congruence.
  - exfalso. simpl in *. destruct (jobs p) as [|[i] rest]; done.
  - exfalso. destruct (step_FallbackEffect inst sl ht p) as (_ & _ & E3 & _).
    rewrite E3 in Hf. done.
Qed.

Definition rank (s : TurnstileState) : nat :=
  match s with unloaded => 0 | loading => 1 | ready => 2 end.

Lemma allowed_rank a b : allowed a b → rank a ≤ rank b.
Proof. intros [->|[[-> ->]|[-> ->]]]; simpl; lia. Qed.

Lemma run_app evs1 evs2 p : run D (evs1 ++ evs2) p = run D evs2 (run D evs1 p).
Proof. unfold run. by rewrite foldl_app. Qed.

Lemma run_monotone evs1 evs2 :
  rank (turnstileState (run D evs1 page0))
  ≤ rank (turnstileState (run D (evs1 ++ evs2) page0)).
Proof.
  induction evs2 as [|e evs2 IH] using rev_ind.
  - by rewrite app_nil_r.
  - rewrite app_assoc, run_snoc.
    etrans; [exact IH|].
    apply allowed_rank, step_allowed, run_consistent.
Qed.

Lemma ensureTurnstile_idempotent arg1 arg2 p :
  (ensureTurnstile D arg2 (ensureTurnstile D arg1 p).1).1 = (ensureTurnstile D arg1 p).1.
Proof.
  apply ensureTurnstile_requested.
  destruct (decide (turnstileState p = unloaded)).
  - by rewrite ensureTurnstile_unloaded.
  - by rewrite ensureTurnstile_requested.
Qed.

(** C1. Along every run of the loader from module initialisation the
    status moves only [unloaded -> loading -> ready]: each step keeps it
    or takes one of these two moves, and it never goes back over a whole
    run. [ensureTurnstile] called in status [unloaded] (the status after
    initialisation) sets [loading] and stores the callback on [window]
    under the given name; called in any other status it changes nothing;
    calling it again after itself changes nothing; every call returns
    [turnstileLoadPromise], whose resolvers are the ones the callback
    holds. The only step that fulfils that promise is the injected script
    calling the installed callback, which happens in status [loading] and
    leaves status [ready]; and that call does fulfil it. *)
Theorem C1_loader_lifecycle (evs : list Event) :
  let p := run D evs page0 in
  (∀ e, allowed (turnstileState p) (turnstileState (step D e p))) ∧
  (∀ more, rank (turnstileState p)
           ≤ rank (turnstileState (run D (evs ++ more) page0))) ∧
  turnstileState page0 = unloaded ∧
  (∀ arg, turnstileState p = unloaded →
     turnstileState (ensureTurnstile D arg p).1 = loading ∧
     window (ensureTurnstile D arg p).1 !! default D arg
       = Some (OnLoad (default D arg))) ∧
  (∀ arg, turnstileState p ≠ unloaded → (ensureTurnstile D arg p).1 = p) ∧
  (∀ arg1 arg2,
     (ensureTurnstile D arg2 (ensureTurnstile D arg1 p).1).1
       = (ensureTurnstile D arg1 p).1) ∧
  (∀ arg, (ensureTurnstile D arg p).2 = turnstileLoadPromise) ∧
  turnstileLoad p = Some turnstileLoadPromise ∧
  (∀ e, heap p !! turnstileLoadPromise ≠ Some Fulfilled →
        heap (step D e p) !! turnstileLoadPromise = Some Fulfilled →
        ∃ name, e = ScriptCalls name ∧
                window p !! name = Some (OnLoad name) ∧
                turnstileState p = loading ∧
                turnstileState (step D e p) = ready) ∧
  (∀ name f, window p !! name = Some f →
        f = OnLoad name ∧ turnstileState p = loading ∧
        turnstileState (step D (ScriptCalls name) p) = ready ∧
        heap (step D (ScriptCalls name) p) !! turnstileLoadPromise = Some Fulfilled ∧
        window (step D (ScriptCalls name) p) !! name = None).
Proof.
  intros p. pose proof (run_consistent evs) as Hc. fold p in Hc.
  split; [intros e; by apply step_allowed|].
  split; [intros more; apply run_monotone|].
  split; [reflexivity|].
  split.
  { intros arg Hu. rewrite ensureTurnstile_unloaded by done. simpl.
    split; [done|]. apply lookup_insert_eq. }
  split; [intros arg; apply ensureTurnstile_requested|].
  split; [intros arg1 arg2; apply ensureTurnstile_idempotent|].
  split; [done|].
  split; [by destruct Hc|].
  split; [intros e; by apply step_fulfils|].
  intros name f Hw. pose proof Hc as [Hl Hs].
  destruct (turnstileState p) eqn:Hst.
  - destruct Hs as [Hw' _]. rewrite Hw' in Hw. by rewrite lookup_empty in Hw.
  - destruct Hs as [[m Hw'] _].
    assert (m = name ∧ f = OnLoad name) as [-> ->].
    { rewrite Hw' in Hw. apply lookup_singleton_Some in Hw as [-> Hw]. done. }
    destruct (onLoad_body_loading name p Hc Hw' Hst) as (H1 & H2 & H3 & H4).
    simpl. rewrite Hw' at 1 2 3. rewrite lookup_singleton_eq.
    repeat split; try done. by rewrite H2.
  - destruct Hs as [Hw' _]. rewrite Hw' in Hw. by rewrite lookup_empty in Hw.
Qed.

End WithUtils.

Section Consumers.
(** [DEFAULT_ONLOAD_NAME] of [./utils]. *)
Variable D : string.

(** The reactions the consumers of a run chained, in order: one for
    each [waitForTurnstile]. *)
Definition consumers (evs : list Event) : list Reaction :=
  omap (λ e, match e with
             | AwaitLoaded _ inst => Some (SetTurnstileLoaded inst)
             | _ => None
             end) evs.

(** The script calling a global. *)
Definition calls_global (e : Event) : bool :=
  match e with ScriptCalls _ => true | _ => false end.

(** While the status is not [ready], the promise is pending, every
    consumer so far is parked on it, and no reaction is queued or has
    run. *)
Lemma run_parked evs :
  let p := run D evs page0 in
  turnstileState p ≠ ready →
  jobs p = [] ∧ turnstileLoaded p = ∅ ∧
  heap p !! turnstileLoadPromise = Some (Pending (consumers evs)).
Proof.
  induction evs as [|e evs IH] using rev_ind; cbv zeta.
  - by repeat split.
  - rewrite run_snoc. unfold consumers. rewrite omap_app. fold (consumers evs).
    pose proof (run_consistent D evs) as Hc. cbv zeta in IH.
    set (p := run D evs page0) in *. intros Hr'.
    assert (turnstileState p ≠ ready) as Hr.
    { intros Hr. destruct (step_allowed D e p Hc) as [He|[[He _]|[He _]]];
        congruence. }
    destruct (IH Hr) as (Hj & Ht & Hp).
    destruct e as [arg|n|arg inst| |inst sl ht].
    + simpl. rewrite app_nil_r.
      destruct (decide (turnstileState p = unloaded)); by repeat split.
    + simpl in *. rewrite app_nil_r.
      destruct (window p !! n) as [[m]|] eqn:Hn; [exfalso|done].
      destruct Hc as [Hl _]. apply Hr'. unfold onLoad_body. by rewrite Hl.
    + rewrite step_AwaitLoaded, decide_False by done.
      assert (heap (ensureTurnstile D arg p).1 = heap p ∧
              jobs (ensureTurnstile D arg p).1 = jobs p ∧
              turnstileLoaded (ensureTurnstile D arg p).1 = turnstileLoaded p)
        as (Eh & Ej & Et).
      { destruct (decide (turnstileState p = unloaded)).
        - by rewrite ensureTurnstile_unloaded.
        - by rewrite ensureTurnstile_requested. }
      unfold then_. rewrite Eh, Hp. cbn [jobs turnstileLoaded heap set_heap].
      rewrite Ej, Et. split; [done|]. split; [done|].
      simpl. apply list_lookup_insert_eq. by eapply lookup_lt_Some.
    + simpl. rewrite Hj, app_nil_r. done.
    + destruct (step_FallbackEffect D inst sl ht p) as (_ & _ & -> & _ & -> & ->).
      simpl. by rewrite app_nil_r.
Qed.

(** As long as the script calls nothing, the status is not [ready]. *)
Lemma silent_not_ready evs :
  Forall (λ e, calls_global e = false) evs →
  turnstileState (run D evs page0) ≠ ready.
Proof.
  induction evs as [|e evs IH] using rev_ind; intros Hevs; [done|].
  apply Forall_app in Hevs as [Hevs He]. inversion He as [|? ? He' _]; subst.
  rewrite run_snoc. specialize (IH Hevs).
  destruct e as [arg|n|arg inst| |inst sl ht]; [|done| | |].
  - by apply ensureTurnstile_not_ready.
  - rewrite step_AwaitLoaded, decide_False by done.
    rewrite then_turnstileState. by apply ensureTurnstile_not_ready.
  - simpl. by destruct (jobs (run D evs page0)) as [|[i] rest].
  - by destruct (step_FallbackEffect D inst sl ht (run D evs page0)) as (-> & _).
Qed.

(** Only the fallback effect writes its record. *)
Lemma step_fallbackLoaded e p :
  fallbackLoaded (step D e p) =
    match e with
    | FallbackEffect inst scriptLoaded has_turnstile =>
        if scriptLoaded && negb (loaded inst p) && has_turnstile
        then {[inst]} ∪ fallbackLoaded p else fallbackLoaded p
    | _ => fallbackLoaded p
    end.
Proof.
  destruct e as [arg|n|arg inst| |inst sl ht]; simpl.
  - by destruct (decide _).
  - destruct (window p !! n) as [[m]|]; [|done].
    unfold onLoad_body. destruct (turnstileLoad p) as [r|]; [|done].
    unfold resolve. by destruct (heap p !! r) as [[]|].
  - destruct (decide (turnstileState p = ready)); [done|].
    unfold then_. simpl.
    destruct (decide (turnstileState p = unloaded)); simpl;
      by destruct (heap p !! turnstileLoadPromise) as [[]|].
  - by destruct (jobs p) as [|[i] rest].
  - by destruct (_ && _).
Qed.

(** A component the fallback marked loaded had its fallback effect run
    with the script reported loaded and [window.turnstile] there. *)
Lemma fallbackLoaded_run evs inst :
  inst ∈ fallbackLoaded (run D evs page0) → FallbackEffect inst true true ∈ evs.
Proof.
  induction evs as [|e evs IH] using rev_ind; [by intros ?%elem_of_empty|].
  rewrite run_snoc, step_fallbackLoaded, elem_of_app. intros Hin.
  destruct e as [arg|n|arg i| |i sl ht]; try (left; by apply IH).
  destruct sl, ht, (loaded i (run D evs page0)); simpl in Hin;
    try (left; by apply IH).
  apply elem_of_union in Hin as [->%elem_of_singleton|Hin]; [|left; by apply IH].
  right. by apply list_elem_of_singleton.
Qed.

(** C8, as the code has it. The executor of the shared promise resolves
    it at once when the status is [ready] and leaves it pending
    otherwise; at module initialisation the status is [unloaded], it was
    set on the line before, so the promise of the module always starts
    pending. From then on it is fulfilled exactly when the status is
    [ready], and the only step that makes the status [ready] is the
    script calling the installed callback. A consumer that chains on the
    promise once the status is [ready] has its reaction queued at once.
    While the status is not [ready] the promise is pending, every
    consumer that chained is parked on it, and no reaction is queued or
    has run; and the status is not [ready] for as long as the script
    calls no global: when the library was initialised before the module
    was loaded and the script never calls the callback, the consumers
    stay parked. A component whose [turnstileLoaded] is [true] by then
    owes it to its fallback effect, run with the script reported loaded
    and [window.turnstile] there, which does set it. *)
Theorem C8_pending_until_callback :
  (∀ p, let q := (construct_turnstileLoadPromise p).1 in
        let r := (construct_turnstileLoadPromise p).2 in
        turnstileLoad q = Some r ∧
        heap q !! r = Some (if decide (turnstileState p = ready)
                            then Fulfilled else Pending [])) ∧
  (turnstileState page0 = unloaded ∧
   heap page0 !! turnstileLoadPromise = Some (Pending [])) ∧
  (∀ evs, let p := run D evs page0 in
     (heap p !! turnstileLoadPromise = Some Fulfilled ↔ turnstileState p = ready) ∧
     (∀ e, turnstileState p ≠ ready → turnstileState (step D e p) = ready →
           ∃ name, e = ScriptCalls name ∧ window p !! name = Some (OnLoad name)) ∧
     (turnstileState p = ready →
      ∀ k, jobs (then_ turnstileLoadPromise k p) = jobs p ++ [k]) ∧
     (turnstileState p ≠ ready →
      heap p !! turnstileLoadPromise = Some (Pending (consumers evs)) ∧
      jobs p = [] ∧ turnstileLoaded p = ∅ ∧
      ∀ inst, loaded inst p = true → FallbackEffect inst true true ∈ evs) ∧
     (Forall (λ e, calls_global e = false) evs → turnstileState p ≠ ready) ∧
     (∀ inst, loaded inst (step D (FallbackEffect inst true true) p) = true)).
Proof.
  split; [|split].
  - intros p. cbv zeta.
    unfold construct_turnstileLoadPromise, new_Promise,
      turnstileLoadPromise_executor. simpl.
    destruct (decide (turnstileState p = ready)) as [Hr|Hr].
    + unfold resolve. simpl.
      rewrite lookup_app_r by done. rewrite Nat.sub_diag. simpl.
      split; [done|].
      rewrite insert_app_r_alt by done. rewrite Nat.sub_diag. simpl.
      rewrite lookup_app_r by done. by rewrite Nat.sub_diag.
    + simpl. split; [done|].
      rewrite lookup_app_r by done. by rewrite Nat.sub_diag.
  - by split.
  - intros evs p. pose proof (run_consistent D evs) as Hc. fold p in Hc.
    assert (∀ q, consistent q →
              (heap q !! turnstileLoadPromise = Some Fulfilled
               ↔ turnstileState q = ready)) as Hiff.
    { intros q [_ Hs]. destruct (turnstileState q).
      - destruct Hs as [_ [rs Hp]]. rewrite Hp. by split.
      - destruct Hs as [_ [rs Hp]]. rewrite Hp. by split.
      - destruct Hs as [_ Hp]. by rewrite Hp. }
    split; [by apply Hiff|]. split; [|split; [|split; [|split]]].
    + intros e Hn Hr.
      destruct (step_fulfils D e p Hc) as (name & -> & Hw & _).
      * intros Hf. by apply Hn, Hiff.
      * apply Hiff; [by apply step_consistent|done].
      * by exists name.
    + intros Hr k. destruct Hc as [_ Hs]. rewrite Hr in Hs. destruct Hs as [_ Hp].
      unfold then_. by rewrite Hp.
    + intros Hn. destruct (run_parked evs Hn) as (Hj & Ht & Hp).
      fold p in Hj, Ht, Hp. split; [done|]. split; [done|]. split; [done|].
      intros inst Hl. apply fallbackLoaded_run.
      unfold loaded in Hl. apply bool_decide_eq_true in Hl.
      rewrite Ht in Hl. by apply elem_of_union in Hl as [?%elem_of_empty|].
    + apply silent_not_ready.
    + intros inst. simpl. unfold loaded.
      destruct (bool_decide (inst ∈ turnstileLoaded p ∪ fallbackLoaded p)) eqn:E;
        simpl; [done|].
      apply bool_decide_eq_true. simpl.
      apply elem_of_union. right. apply elem_of_union. left.
      by apply elem_of_singleton.
Qed.

End Consumers.

(** C8, as the spec has it, fails when the library was initialised
    before the module was loaded and the script calls nothing: two
    components wait, the host runs what jobs there are, and both
    reactions are still parked on the pending promise, neither component
    marked loaded. *)
Lemma C8_consumers_stay_parked :
  let evs := [AwaitLoaded None 1; AwaitLoaded None 2; RunJob; RunJob] in
  let p := run "onloadTurnstileCallback" evs page0 in
  turnstileState p = loading ∧
  heap p !! turnstileLoadPromise
    = Some (Pending [SetTurnstileLoaded 1; SetTurnstileLoaded 2]) ∧
  jobs p = [] ∧
  turnstileLoaded p = ∅ ∧
  loaded 1 p = false ∧ loaded 2 p = false.
Proof. repeat split. Qed.

End LoaderFacts.

(* ===================================================================== *)
(** ** The component                                                      *)
(* ===================================================================== *)

Module WidgetFacts.
Import Js Widget.

(** Unfolds the monad so that an operation applied to a state computes. *)
Ltac run_m :=
  unfold void, external, method, setContainerStyle, notifyWidgetLoad,
    try_catch, mbind, M_bind, mret, M_ret, bind, ret, get, modify, emit, throw,
    state, actions, result;
  simpl.

(** The guard the handle's methods share:
    [!turnstile?.m || !widgetId.current || !checkIfTurnstileLoaded()]
    does not fire. *)
Definition usable {F} (sel : Turnstile → option F) (e : Env) (i : Inst) : bool :=
  has (turnstile e) sel && truthy (widgetId i) && checkIfTurnstileLoaded e.

Lemma usable_guard {F} (sel : Turnstile → option F) e i :
  negb (has (turnstile e) sel) || negb (truthy (widgetId i))
    || negb (checkIfTurnstileLoaded e) = negb (usable sel e i).
Proof.
  unfold usable.
  by destruct (has (turnstile e) sel), (truthy (widgetId i)), (checkIfTurnstileLoaded e).
Qed.

Lemma usable_method {F} (sel : Turnstile → option F) e i :
  usable sel e i = true →
  ∃ lib f, turnstile e = Some lib ∧ sel lib = Some f ∧ truthy (widgetId i) = true.
Proof.
  unfold usable, has. intros H.
  apply andb_prop in H as [H _]. apply andb_prop in H as [H Ht].
  destruct (turnstile e) as [lib|]; [|done].
  apply bool_decide_eq_true in H as [f Hf]. by exists lib, f.
Qed.

Section WithUtils.
Variable C : StyleKey → Style.
Variable G : Size → string.

(** What the external [reset] answers for this component's id, when
    the method can be reached. *)
Definition reset_answer (e : Env) (i : Inst) : option (Result unit) :=
  lib ← turnstile e; f ← t_reset lib; Some (f (widgetId i)).
Definition remove_answer (e : Env) (i : Inst) : option (Result unit) :=
  lib ← turnstile e; f ← t_remove lib; Some (f (widgetId i)).

Lemma reset_usable e i :
  usable t_reset e i = true →
  ∃ a, reset_answer e i = Some a ∧
  let i1 :=
    if decide (o_execution (options (props e)) = Some execute_mode)
    then set_containerStyle (C (BySize invisible)) i else i in
  reset C e i =
    (set_widgetSolved false i1,
     CallReset (widgetId i) ::
       match a with
       | Returns _ => []
       | Throws _ => [Warn "Failed to reset Turnstile widget [object Object]"]
       end,
     Returns tt).
Proof.
  intros Hu. destruct (usable_method _ _ _ Hu) as (lib & f & Hl & Hf & Ht).
  exists (f (widgetId i)). split.
  { unfold reset_answer. rewrite Hl. simpl. by rewrite Hf. }
  unfold reset. run_m. rewrite usable_guard, Hu. simpl.
  rewrite Hl, Hf.
  destruct (decide (o_execution (options (props e)) = Some execute_mode));
    simpl; by destruct (f (widgetId i)) as [[]|err].
Qed.

Lemma remove_usable e i :
  usable t_remove e i = true →
  ∃ a, remove_answer e i = Some a ∧
  let i1 := set_widgetSolved false (set_containerStyle (C (BySize invisible)) i) in
  remove C e i =
    match a with
    | Returns _ => (set_widgetId Null i1, [CallRemove (widgetId i)], Returns tt)
    | Throws err => (i1, [CallRemove (widgetId i)], Throws err)
    end.
Proof.
  intros Hu. destruct (usable_method _ _ _ Hu) as (lib & f & Hl & Hf & Ht).
  exists (f (widgetId i)). split.
  { unfold remove_answer. rewrite Hl. simpl. by rewrite Hf. }
  unfold remove. run_m. rewrite usable_guard, Hu. simpl.
  rewrite Hl, Hf. by destruct (f (widgetId i)) as [[]|err].
Qed.

(** C10. [reset()] changes the component before it calls the library
    and nothing undoes the change: whenever its guard passes, [reset()]
    returns, the solved flag is [false] afterwards and, with
    [execution: 'execute'], the container style is the invisible one;
    this holds whatever the external [reset] does, and when it throws
    the state is the same as when it returns, the only difference being
    the warning that is logged. *)
Theorem C10_reset_keeps_changes_on_failure (e : Env) (i : Inst) :
  usable t_reset e i = true →
  let o := reset C e i in
  result o = Returns tt ∧
  widgetSolved (state o) = false ∧
  (o_execution (options (props e)) = Some execute_mode →
   containerStyle (state o) = C (BySize invisible)) ∧
  (∀ err, reset_answer e i = Some (Throws err) →
     actions o = [CallReset (widgetId i);
                  Warn "Failed to reset Turnstile widget [object Object]"] ∧
     ∀ e', usable t_reset e' i = true → props e' = props e →
           state (reset C e' i) = state o).
Proof.
  intros Hu o. destruct (reset_usable e i Hu) as (a & Ha & Hr).
  subst o. rewrite Hr. unfold state, actions, result. simpl.
  split; [done|]. split; [done|]. split.
  - intros Hx. by rewrite decide_True.
  - intros err He. rewrite Ha in He. injection He as ->. split; [done|].
    intros e' Hu' Hp. destruct (reset_usable e' i Hu') as (a' & _ & Hr').
    rewrite Hr'. simpl. by rewrite Hp.
Qed.

(** C4, as the code has it. [reset()] never lets an error of the
    external [reset] out: when its guard passes it returns, and when the
    external call threw, a warning was logged. [remove()] has no handler:
    when its guard passes and the external [remove] throws, the same
    error leaves [remove()], after the style and the solved flag were
    changed and before the widget id is cleared. *)
Theorem C4_reset_catches_remove_does_not (e : Env) (i : Inst) :
  (usable t_reset e i = true →
     result (reset C e i) = Returns tt ∧
     ∀ err, reset_answer e i = Some (Throws err) →
            Warn "Failed to reset Turnstile widget [object Object]"
              ∈ actions (reset C e i)) ∧
  (usable t_remove e i = true →
     ∀ err, remove_answer e i = Some (Throws err) →
            result (remove C e i) = Throws err ∧
            widgetId (state (remove C e i)) = widgetId i ∧
            widgetSolved (state (remove C e i)) = false ∧
            containerStyle (state (remove C e i)) = C (BySize invisible)).
Proof.
  split.
  - intros Hu. destruct (reset_usable e i Hu) as (a & Ha & Hr).
    rewrite Hr. unfold actions, result. simpl. split; [done|].
    intros err He. rewrite Ha in He. injection He as ->. set_solver.
  - intros Hu err He. destruct (remove_usable e i Hu) as (a & Ha & Hr).
    rewrite Ha in He. injection He as ->. by rewrite Hr.
Qed.

(** The guard of [render()] does not fire. *)
Definition render_ready (e : Env) (i : Inst) : bool :=
  has (turnstile e) t_render && bool_decide (is_Some (containerRef i))
  && checkIfTurnstileLoaded e && negb (truthy (widgetId i)).

(** What the external [render] answers for this container and
    configuration, when the method can be reached. *)
Definition render_answer (e : Env) (i : Inst) : option (Result Str) :=
  lib ← turnstile e; f ← t_render lib; node ← containerRef i;
  Some (f node (renderConfig G (props e))).

Definition is_CallRender (a : Action) : bool :=
  match a with CallRender _ _ => true | _ => false end.
Definition is_HookWidgetLoad (a : Action) : bool :=
  match a with HookWidgetLoad _ => true | _ => false end.

(** The state [render()] leaves once the library returned [id]. *)
Definition rendered (e : Env) (id : Str) (i : Inst) : Inst :=
  let i := set_widgetId id i in
  if decide (o_execution (options (props e)) = Some execute_mode) then i
  else set_containerStyle (C (BySize (widgetSize (props e)))) i.

Lemma render_ready_run e i :
  render_ready e i = true →
  ∃ node a, containerRef i = Some node ∧ render_answer e i = Some a ∧
  render C G e i =
    match a with
    | Returns id =>
        (rendered e id i,
         CallRender node (renderConfig G (props e)) ::
           (if truthy id && onWidgetLoad (props e) then [HookWidgetLoad id] else []),
         Returns id)
    | Throws err => (i, [CallRender node (renderConfig G (props e))], Throws err)
    end.
Proof.
  unfold render_ready, has. intros H.
  apply andb_prop in H as [H Hi]. apply andb_prop in H as [H Hw].
  apply andb_prop in H as [Hl Hn].
  destruct (turnstile e) as [lib|] eqn:Hlib; [|done].
  apply bool_decide_eq_true in Hl as [f Hf].
  apply bool_decide_eq_true in Hn as [node Hnode].
  exists node, (f node (renderConfig G (props e))). split; [done|]. split.
  { unfold render_answer. rewrite Hlib. simpl. rewrite Hf. simpl. by rewrite Hnode. }
  unfold render, has. run_m. rewrite Hnode, Hlib, Hf, Hw.
  rewrite bool_decide_eq_true_2 by by eexists.
  apply negb_true_iff in Hi. rewrite Hi. simpl.
  destruct (f node (renderConfig G (props e))) as [id|err]; [|done].
  unfold rendered. simpl.
  destruct (truthy id && onWidgetLoad (props e));
    by destruct (decide (o_execution (options (props e)) = Some execute_mode)).
Qed.

Lemma render_not_ready e i :
  render_ready e i = false →
  render C G e i =
    (i, [Warn "Turnstile has not been loaded or container not found"], Returns Undefined).
Proof.
  unfold render_ready, render. run_m. intros H.
  destruct (containerRef i) as [node|]; [|done].
  rewrite bool_decide_eq_true_2 in H by by eexists. rewrite andb_true_r in H.
  destruct (has (turnstile e) t_render), (checkIfTurnstileLoaded e),
    (truthy (widgetId i)); simpl in *; done.
Qed.

(** C5, as the code has it. When the library (as captured and as on
    [window]) and the container are there and no id is held, [render()]
    calls the external [render] once, with the container and the current
    configuration; when that call returns [id], [id] is stored and
    returned, and the widget-load hook is invoked with it exactly when
    [id] is truthy and a hook was passed, and not otherwise. When the
    guard fires, and so whenever an id is held, [render()] logs one
    warning, calls nothing and changes nothing. *)
Theorem C5_render_once (e : Env) (i : Inst) :
  (render_ready e i = true →
     ∃ node, containerRef i = Some node ∧
     filter is_CallRender (actions (render C G e i))
       = [CallRender node (renderConfig G (props e))] ∧
     ∀ id, render_answer e i = Some (Returns id) →
       widgetId (state (render C G e i)) = id ∧
       result (render C G e i) = Returns id ∧
       filter is_HookWidgetLoad (actions (render C G e i))
         = if truthy id && onWidgetLoad (props e) then [HookWidgetLoad id] else []) ∧
  (render_ready e i = false →
     render C G e i =
       (i, [Warn "Turnstile has not been loaded or container not found"],
        Returns Undefined)) ∧
  (truthy (widgetId i) = true → render_ready e i = false).
Proof.
  split; [|split].
  - intros Hr. destruct (render_ready_run e i Hr) as (node & a & Hn & Ha & Hrun).
    exists node. split; [done|]. rewrite Hrun. split.
    + destruct a as [id|err]; unfold actions; simpl; [|done].
      by destruct (truthy id && onWidgetLoad (props e)).
    + intros id Hid. rewrite Ha in Hid. injection Hid as ->.
      unfold state, actions, result, rendered. simpl.
      split; [by destruct (decide _)|]. split; [done|].
      by destruct (truthy id && onWidgetLoad (props e)).
  - apply render_not_ready.
  - intros Ht. unfold render_ready. rewrite Ht. simpl. by rewrite andb_false_r.
Qed.

(** The guards of [execute()] do not fire. *)
Definition execute_ready (e : Env) (i : Inst) : bool :=
  bool_decide (o_execution (options (props e)) = Some execute_mode)
  && has (turnstile e) t_execute && bool_decide (is_Some (containerRef i))
  && truthy (widgetId i) && checkIfTurnstileLoaded e.

Definition execute_answer (e : Env) (i : Inst) : option (Result unit) :=
  lib ← turnstile e; f ← t_execute lib; node ← containerRef i;
  Some (f node (renderConfig G (props e))).

(** C7. [execute()] acts only with [execution: 'execute'] and with
    widget id, container and library (as captured and as on [window])
    all there: it then calls the external [execute] with the container
    and the current configuration and, that call having returned, sets
    the container style to the entry of [CONTAINER_STYLE_SET] for the
    configured size (an error of the external call goes to the caller,
    with nothing changed). In every other case it logs one warning,
    calls nothing and changes nothing. *)
Theorem C7_execute_only_in_execute_mode (e : Env) (i : Inst) :
  (execute_ready e i = true →
     ∃ node a, containerRef i = Some node ∧ execute_answer e i = Some a ∧
     execute C G e i =
       match a with
       | Returns _ =>
           (set_containerStyle (C (BySize (widgetSize (props e)))) i,
            [CallExecute node (renderConfig G (props e))], Returns tt)
       | Throws err =>
           (i, [CallExecute node (renderConfig G (props e))], Throws err)
       end) ∧
  (execute_ready e i = false →
     ∃ message, execute C G e i = (i, [Warn message], Returns tt)).
Proof.
  unfold execute_ready, execute, has. split.
  - intros H.
    apply andb_prop in H as [H Hw]. apply andb_prop in H as [H Ht].
    apply andb_prop in H as [H Hn]. apply andb_prop in H as [Hx Hl].
    apply bool_decide_eq_true in Hx.
    destruct (turnstile e) as [lib|] eqn:Hlib; [|done].
    apply bool_decide_eq_true in Hl as [f Hf].
    apply bool_decide_eq_true in Hn as [node Hnode].
    exists node, (f node (renderConfig G (props e))). split; [done|]. split.
    { unfold execute_answer. rewrite Hlib. simpl. rewrite Hf. simpl. by rewrite Hnode. }
    rewrite decide_True by done. run_m. rewrite Hnode, Hf, Ht, Hw.
    rewrite bool_decide_eq_true_2 by by eexists. simpl.
    by destruct (f node (renderConfig G (props e))) as [[]|err].
  - intros H.
    destruct (decide (o_execution (options (props e)) = Some execute_mode)) as [Hx|Hx];
      [|by eexists].
    rewrite bool_decide_eq_true_2 in H by done. simpl in H. run_m.
    destruct (containerRef i) as [node|]; [|by eexists].
    rewrite bool_decide_eq_true_2 in H by by eexists. rewrite andb_true_r in H.
    destruct (turnstile e) as [lib|]; simpl in *.
    + destruct (bool_decide (is_Some (t_execute lib))), (truthy (widgetId i)),
        (checkIfTurnstileLoaded e); simpl in *; try done; by eexists.
    + by eexists.
Qed.

(** What the library on [window] answers to the calls of the effect. *)
Definition effect_answer (e : Env) (i : Inst) : option (Result Str) :=
  lib ← window_turnstile e; f ← t_render lib; node ← containerRef i;
  Some (f node (renderConfig G (props e))).
Definition cleanup_answer (e : Env) (i : Inst) : option (Result unit) :=
  lib ← window_turnstile e; f ← t_remove lib; Some (f (widgetId i)).

Ltac run_op :=
  unfold exec, renderWidget, renderWidget_render, renderWidget_cleanup,
    successCallback, getResponse, reset, remove, render, execute, isExpired;
  run_m.

Lemma insert_true_keeps (l : list bool) (k0 k : nat) :
  l !! k = Some true → <[k0 := true]> l !! k = Some true.
Proof.
  intros Hk. destruct (decide (k0 = k)) as [->|Hne].
  - apply list_lookup_insert_eq. by eapply lookup_lt_Some.
  - by rewrite list_lookup_insert_ne.
Qed.

(** A [cancelled] variable that was set stays set. *)
Lemma exec_cancelled e op i k :
  cancelled i !! k = Some true →
  cancelled (state (exec C G e op i)) !! k = Some true.
Proof.
  intros Hk.
  assert (k < length (cancelled i)) as Hlen by by eapply lookup_lt_Some.
  destruct op; run_op; repeat case_match; simplify_eq; simpl; try done;
    try (by apply insert_true_keeps);
    rewrite lookup_app_l by done; done.
Qed.

Lemma exec_all_cancelled h i k :
  cancelled i !! k = Some true →
  cancelled (exec_all C G h i) !! k = Some true.
Proof.
  revert i. induction h as [|[e op] h IH]; intros i Hk; [done|].
  simpl. apply IH. by apply exec_cancelled.
Qed.

Lemma cleanup_cancels e k i :
  k < length (cancelled i) →
  cancelled (state (renderWidget_cleanup e k i)) !! k = Some true.
Proof.
  intros Hk. unfold renderWidget_cleanup. run_m.
  repeat case_match; simplify_eq; simpl; by apply list_lookup_insert_eq.
Qed.

Lemma cancelled_render_inert e k i :
  cancelled i !! k = Some true →
  renderWidget_render G e k i = (i, [], Returns tt).
Proof.
  intros Hk. unfold renderWidget_render. run_m. rewrite Hk. simpl.
  by destruct (containerRef i).
Qed.

(** The effect runs its [render] closure before it returns: the cell it
    hands to its cleanup is new, and still [false] on return. *)
Lemma renderWidget_fresh e i k :
  result (renderWidget G e i) = Returns (Some k) →
  k = length (cancelled i) ∧
  cancelled (state (renderWidget G e i)) !! k = Some false.
Proof.
  unfold renderWidget, renderWidget_render. run_m.
  repeat case_match; simplify_eq; simpl; intros H; simplify_eq;
    (split; [done|]); rewrite lookup_app_r by done;
    by rewrite Nat.sub_diag.
Qed.

(** C6. Once the cleanup of an effect run has executed (on unmount or
    on a dependency change), that run's [cancelled] variable is [true],
    also when the external [remove] inside the cleanup throws, and it
    stays [true] through everything that happens to the component
    afterwards; with it set, the run's [render] closure, whenever it is
    entered, returns at its first line: no call to the library, no id
    stored, no widget-load hook, the component exactly as it was. *)
Theorem C6_cancelled_render_is_inert (e : Env) (k : nat) (i : Inst) :
  k < length (cancelled i) →
  let j := state (renderWidget_cleanup e k i) in
  cancelled j !! k = Some true ∧
  ∀ h e', renderWidget_render G e' k (exec_all C G h j)
            = (exec_all C G h j, [], Returns tt).
Proof.
  intros Hk j. pose proof (cleanup_cancels e k i Hk) as Hc. split; [done|].
  intros h e'. apply cancelled_render_inert. by apply exec_all_cancelled.
Qed.

(** The operations that store what the external [render] returned. *)
Definition stores_render_result (e : Env) (op : Op) (i : Inst) (v : Str) : Prop :=
  (op = Render ∧ render_answer e i = Some (Returns v)) ∨
  (op = Effect ∧ effect_answer e i = Some (Returns v)).

Lemma exec_widgetId e op i :
  op ≠ Remove →
  widgetId (state (exec C G e op i)) = widgetId i ∨
  stores_render_result e op i (widgetId (state (exec C G e op i))).
Proof.
  intros Hop. unfold stores_render_result, render_answer, effect_answer.
  destruct op; try done; run_op; unfold has in *;
    repeat case_match; simplify_eq; simpl in *; auto;
    right;
    repeat (match goal with H : ?x = _ |- context [?x] => rewrite H end; simpl);
    naive_solver.
Qed.

(** C9, as the code has it. The effect's cleanup leaves the stored
    widget id as it was while calling the external [remove] for it, so
    after the cleanup the component still holds the id of the widget it
    removed. [remove()] is the only operation that itself writes [null]
    to the stored id. Every other operation leaves the id as it was,
    except [render()] and the render effect, which store what the
    external [render] just returned, whatever that is. So a widget id
    that is held is lost only in [remove()], or in a run of the effect
    in which the external [render] returns [null], [undefined] or an
    empty string; [render()] itself runs only when no id is held. *)
Theorem C9_what_clears_the_id (e : Env) (i : Inst) :
  (∀ k, widgetId (state (renderWidget_cleanup e k i)) = widgetId i) ∧
  (∀ k a, truthy (widgetId i) = true → cleanup_answer e i = Some a →
          actions (renderWidget_cleanup e k i) = [CallRemove (widgetId i)]) ∧
  (∀ v, usable t_remove e i = true → remove_answer e i = Some (Returns v) →
        widgetId (state (remove C e i)) = Null) ∧
  (∀ op, op ≠ Remove →
         widgetId (state (exec C G e op i)) = widgetId i ∨
         stores_render_result e op i (widgetId (state (exec C G e op i)))) ∧
  (∀ op, truthy (widgetId i) = true →
         truthy (widgetId (state (exec C G e op i))) = false →
         op = Remove ∨
         (op = Effect ∧
          effect_answer e i = Some (Returns (widgetId (state (exec C G e op i)))))).
Proof.
  split; [|split; [|split; [|split]]]; cycle 4.
  { intros op Ht Hf.
    assert (op = Remove ∨ op ≠ Remove) as [|Hne]
      by (destruct op; (by left) || (by right)); [by left|right].
    destruct (exec_widgetId e op i Hne) as [Heq|[[-> _]|[-> Ha]]].
    - rewrite Heq in Hf. congruence.
    - exfalso.
      assert (widgetId (state (exec C G e Render i)) = widgetId i) as Heq.
      { unfold exec, render. run_m. destruct (containerRef i); [|done].
        rewrite Ht, orb_true_r. done. }
      rewrite Heq in Hf. congruence.
    - done. }
  - intros k. unfold renderWidget_cleanup. run_m.
    repeat case_match; simplify_eq; by simpl.
  - intros k a Ht Ha. unfold cleanup_answer in Ha.
    unfold renderWidget_cleanup. run_m. rewrite Ht.
    destruct (window_turnstile e) as [lib|]; [|done]. simpl in Ha.
    destruct (t_remove lib) as [f|]; [|done]. simpl.
    by destruct (f (widgetId i)).
  - intros v Hu Ha. destruct (remove_usable e i Hu) as (a & Ha' & Hr).
    rewrite Ha in Ha'. injection Ha' as <-. by rewrite Hr.
  - intros op. apply exec_widgetId.
Qed.

(** The style a component mounts with, and that the style effect sets
    again when execution mode, size or appearance change: invisible with
    [execution: 'execute'] whatever the size; else the interaction-only
    style with [appearance: 'interaction-only']; else the style of the
    configured size, [normal] when none is given. *)
Theorem mount_style (p : Props) :
  (o_execution (options p) = Some execute_mode →
     containerStyle (mount C p) = C (BySize invisible)) ∧
  (o_execution (options p) ≠ Some execute_mode →
   o_appearance (options p) = Some interaction_only →
     containerStyle (mount C p) = C interactionOnly) ∧
  (o_execution (options p) ≠ Some execute_mode →
   o_appearance (options p) ≠ Some interaction_only →
     containerStyle (mount C p) = C (BySize (default normal (o_size (options p))))) ∧
  (∀ e i, props e = p →
     containerStyle (state (exec C G e UpdateStyle i)) = containerStyle (mount C p)).
Proof.
  unfold mount, styleFor. simpl. repeat split.
  - intros Hx. by rewrite decide_True.
  - intros Hx Ha. rewrite Ha. by repeat case_decide.
  - intros Hx Ha. unfold widgetSize.
    destruct (o_appearance (options p)) as [[]|]; simpl;
      repeat case_decide; done.
  - intros e i <-. by run_m.
Qed.

(** After [remove()] went through, [render()] is allowed again: its
    guard passes as soon as the container is attached and the captured
    library has a [render]. *)
Theorem render_ready_after_remove (e : Env) (i : Inst) :
  usable t_remove e i = true →
  (∃ v, remove_answer e i = Some (Returns v)) →
  is_Some (containerRef i) →
  has (turnstile e) t_render = true →
  widgetId (state (remove C e i)) = Null ∧
  render_ready e (state (remove C e i)) = true.
Proof.
  intros Hu [v Hv] Hc Hr. destruct (remove_usable e i Hu) as (a & Ha & Hrun).
  rewrite Hv in Ha. injection Ha as <-. rewrite Hrun. unfold state. simpl.
  split; [done|]. unfold render_ready. simpl. rewrite Hr.
  rewrite bool_decide_eq_true_2 by done.
  unfold usable in Hu. apply andb_prop in Hu as [_ ->]. done.
Qed.

(** [reset()] keeps the widget id, so a [getResponse()] right after it
    does not take the warning path: its guard passes and it asks the
    library for the response of the same widget. *)
Theorem getResponse_after_reset (e : Env) (i : Inst) :
  usable t_reset e i = true →
  has (turnstile e) t_getResponse = true →
  let j := state (reset C e i) in
  widgetId j = widgetId i ∧
  actions (getResponse e j) = [CallGetResponse (widgetId i)].
Proof.
  intros Hu Hg j. destruct (reset_usable e i Hu) as (a & _ & Hr).
  assert (widgetId j = widgetId i) as Hid.
  { subst j. rewrite Hr. unfold state. simpl. by destruct (decide _). }
  split; [done|].
  unfold getResponse. run_m. rewrite Hg, Hid.
  unfold usable in Hu. apply andb_prop in Hu as [Hu ->].
  apply andb_prop in Hu as [_ ->]. simpl.
  unfold has in Hg. destruct (turnstile e) as [lib|]; [|done].
  apply bool_decide_eq_true in Hg as [f ->].
  by destruct (f (widgetId i)).
Qed.

(** The [renderWidget] effect does not look at the stored id: with the
    container attached, the component loaded and a [render] on
    [window.turnstile], it calls the external [render] and stores what
    that returns, whether or not an id was held before. *)
Theorem effect_renders_over_held_id (e : Env) (i : Inst) (node : Node) (id : Str) :
  containerRef i = Some node →
  turnstileLoaded i = true →
  effect_answer e i = Some (Returns id) →
  widgetId (state (renderWidget G e i)) = id ∧
  CallRender node (renderConfig G (props e)) ∈ actions (renderWidget G e i).
Proof.
  intros Hc Hl Ha. unfold effect_answer in Ha. rewrite Hc in Ha.
  destruct (window_turnstile e) as [lib|] eqn:Hlib; [|done]. simpl in Ha.
  destruct (t_render lib) as [f|] eqn:Hf; [|done]. simpl in Ha.
  injection Ha as Ha.
  unfold renderWidget, renderWidget_render. run_m.
  rewrite Hc, Hl. simpl. rewrite Hc, Hlib, Hf, Ha.
  rewrite lookup_app_r by done. rewrite Nat.sub_diag. simpl.
  destruct (truthy id && onWidgetLoad (props e)); simpl;
    (split; [done|]); apply elem_of_cons; by left.
Qed.

End WithUtils.

Lemma render_ready_after_remove_witness :
  let e := Fixtures.env (Fixtures.lib (Returns (Lit "w2")) (Returns Null) (Returns tt)) None in
  usable t_remove e Fixtures.active = true ∧
  widgetId (state (remove Fixtures.styles e Fixtures.active)) = Null ∧
  render_ready e (state (remove Fixtures.styles e Fixtures.active)) = true.
Proof.
  split; [reflexivity|].
  apply (render_ready_after_remove Fixtures.styles
           (Fixtures.env (Fixtures.lib (Returns (Lit "w2")) (Returns Null) (Returns tt)) None)
           Fixtures.active).
  - reflexivity.
  - exists tt. reflexivity.
  - eexists. reflexivity.
  - reflexivity.
Defined.

Lemma getResponse_after_reset_witness :
  let e := Fixtures.env (Fixtures.lib (Returns (Lit "w2")) (Returns Undefined) (Returns tt)) None in
  let j := state (reset Fixtures.styles e Fixtures.active) in
  usable t_reset e Fixtures.active = true ∧
  widgetId j = Lit "w1" ∧
  actions (getResponse e j) = [CallGetResponse (Lit "w1")].
Proof.
  split; [reflexivity|].
  apply (getResponse_after_reset Fixtures.styles
           (Fixtures.env (Fixtures.lib (Returns (Lit "w2")) (Returns Undefined) (Returns tt)) None)
           Fixtures.active); reflexivity.
Defined.

Lemma effect_renders_over_held_id_witness :
  let e := Fixtures.env (Fixtures.lib (Returns (Lit "w2")) (Returns Null) (Returns tt)) None in
  widgetId Fixtures.active = Lit "w1" ∧
  widgetId (state (renderWidget Fixtures.sizeOpts e Fixtures.active)) = Lit "w2" ∧
  CallRender 7 (renderConfig Fixtures.sizeOpts (props e))
    ∈ actions (renderWidget Fixtures.sizeOpts e Fixtures.active).
Proof.
  split; [reflexivity|].
  apply (effect_renders_over_held_id Fixtures.sizeOpts
           (Fixtures.env (Fixtures.lib (Returns (Lit "w2")) (Returns Null) (Returns tt)) None)
           Fixtures.active 7 (Lit "w2")); reflexivity.
Defined.

Lemma C6_cancelled_render_is_inert_witness :
  let e := Fixtures.env (Fixtures.lib (Returns (Lit "w2")) (Returns Null) (Throws "gone")) None in
  let j := state (renderWidget_cleanup e 0 Fixtures.active) in
  0 < length (cancelled Fixtures.active) ∧
  cancelled j !! 0 = Some true ∧
  ∀ h e', renderWidget_render Fixtures.sizeOpts e' 0
            (exec_all Fixtures.styles Fixtures.sizeOpts h j)
          = (exec_all Fixtures.styles Fixtures.sizeOpts h j, [], Returns tt).
Proof.
  split; [simpl; lia|].
  apply (C6_cancelled_render_is_inert Fixtures.styles Fixtures.sizeOpts
           (Fixtures.env (Fixtures.lib (Returns (Lit "w2")) (Returns Null) (Throws "gone")) None)
           0 Fixtures.active).
  simpl; lia.
Defined.

(** C5, as the spec has it, fails when the external [render] returns
    no id: the guard of [render()] passes and a hook was passed, the
    library is called once and what it returned is stored, but the
    widget-load hook is not invoked. *)
Lemma C5_no_hook_without_id :
  let e := Fixtures.env (Fixtures.lib (Returns Undefined) (Returns Null) (Returns tt)) None in
  let i := Fixtures.bare None in
  let o := render Fixtures.styles Fixtures.sizeOpts e i in
  render_ready e i = true ∧ onWidgetLoad (props e) = true ∧
  actions o = [CallRender 7 (renderConfig Fixtures.sizeOpts (props e))] ∧
  widgetId (state o) = Undefined ∧
  filter is_HookWidgetLoad (actions o) = [].
Proof. repeat split. Qed.

Lemma C10_reset_keeps_changes_on_failure_witness :
  let e := Fixtures.env (Fixtures.lib (Returns Null) (Returns Null) (Throws "gone"))
                        (Some execute_mode) in
  let i := Fixtures.active in
  let o := reset Fixtures.styles e i in
  usable t_reset e i = true ∧
  reset_answer e i = Some (Throws "gone") ∧
  result o = Returns tt ∧
  widgetSolved (state o) = false ∧
  containerStyle (state o) = Fixtures.styles (BySize invisible).
Proof.
  split; [reflexivity|]. split; [reflexivity|].
  destruct (C10_reset_keeps_changes_on_failure Fixtures.styles
              (Fixtures.env (Fixtures.lib (Returns Null) (Returns Null) (Throws "gone"))
                            (Some execute_mode))
              Fixtures.active eq_refl) as (H1 & H2 & H3 & _).
  split; [exact H1|]. split; [exact H2|]. exact (H3 eq_refl).
Defined.

(** C4, as the spec has it, fails for [remove()]: with a widget held,
    the library loaded and an external [remove] that throws, the error
    comes out of [remove()]. *)
(** C9, as the spec has it, fails for a run of the effect over a held
    id with an external [render] that returns [null]: the id is gone,
    and no [remove()] was called. *)
Lemma C9_effect_clears_held_id :
  let e := Fixtures.env (Fixtures.lib (Returns Null) (Returns Null) (Returns tt)) None in
  widgetId Fixtures.active = Lit "w1" ∧
  widgetId (state (exec Fixtures.styles Fixtures.sizeOpts e Effect Fixtures.active))
    = Null ∧
  actions (exec Fixtures.styles Fixtures.sizeOpts e Effect Fixtures.active)
    = [CallRender 7 (renderConfig Fixtures.sizeOpts (props e))].
Proof. repeat split. Qed.

Lemma C4_remove_propagates :
  let e := Fixtures.env (Fixtures.lib (Returns Null) (Returns Null) (Throws "gone")) None in
  usable t_remove e Fixtures.active = true ∧
  result (remove Fixtures.styles e Fixtures.active) = Throws "gone".
Proof. split; reflexivity. Qed.

End WidgetFacts.

(* ===================================================================== *)
(** ** The response poll                                                  *)
(* ===================================================================== *)

Module PollFacts.
Import Js Widget Poll.

#[local] Arguments Nat.mul : simpl never.
#[local] Arguments Nat.add : simpl never.
#[local] Arguments Nat.max : simpl never.
#[local] Arguments Nat.ltb : simpl never.
#[local] Arguments seq : simpl never.
#[local] Arguments host_delay : simpl never.

(** The host lets time pass before a timer fires. *)
Lemma host_delay_pos ms : 0 < host_delay ms.
Proof.
  unfold host_delay. destruct (_ && _) eqn:E; [|lia].
  apply andb_true_iff in E as [E _]. apply Nat.leb_le in E. lia.
Qed.

(** A delay from [1] to [TIMEOUT_MAX] is kept. *)
Lemma host_delay_kept ms :
  1 ≤ ms → (N.of_nat ms ≤ TIMEOUT_MAX)%N → host_delay ms = ms.
Proof.
  intros H1 H2. unfold host_delay.
  apply Nat.leb_le in H1. apply N.leb_le in H2. by rewrite H1, H2.
Qed.

(** Any other delay is [1]: the host never waits longer than asked,
    except for the millisecond it gives a delay of [0]. *)
Lemma host_delay_le ms : host_delay ms ≤ Nat.max 1 ms.
Proof. unfold host_delay. destruct (_ && _); lia. Qed.

(** The calls [setTimeout(<time-out handler>, _)] in a trace. *)
Definition arms_timeout (ev : Event) : bool :=
  match ev with SetTimeout _ OnTimeout _ => true | _ => false end.
Definition timeout_timers_created (tr : list Event) : nat :=
  length (filter arms_timeout tr).

(** The instants of the checks in a trace, in order. *)
Definition checks (tr : list Event) : list nat :=
  omap (fun ev => match ev with Checked t => Some t | _ => None end) tr.

(** The entry point is [run] at the arguments given, and at
    [30000] and [100] milliseconds for those left out. *)
Lemma getResponsePromise_run world timeout retry n :
  getResponsePromise world timeout retry n
  = run world (default (30 * 1000) timeout) (default 100 retry) n.
Proof. reflexivity. Qed.

(** Bookkeeping that every state of the routine satisfies: the host's
    counter never hands out [0]; while [timeoutId] is unset no time-out
    timer was created and no timer is armed; once it is set exactly one
    time-out timer was created, and a time-out timer that is armed is
    that one; once the promise is settled no time-out timer is armed, and
    [clearTimeout] was called on the one that was created. *)
Record sound (s : Loop) : Prop := {
  sound_next : next_id s ≠ 0;
  sound_unset :
    timeoutId s = None →
    timeout_timers_created (trace s) = 0 ∧ timers s = [];
  sound_set :
    ∀ id, timeoutId s = Some id →
    id ≠ 0 ∧ timeout_timers_created (trace s) = 1 ∧
    ∀ t, t ∈ timers s → callback t = OnTimeout → timer_id t = id;
  sound_settled :
    promise s ≠ Pending →
    (∀ t, t ∈ timers s → callback t ≠ OnTimeout) ∧
    ∀ id, timeoutId s = Some id → ClearTimeout id ∈ trace s;
}.

Lemma created_app tr ev :
  timeout_timers_created (tr ++ [ev])
  = timeout_timers_created tr + (if arms_timeout ev then 1 else 0).
Proof.
  unfold timeout_timers_created.
  rewrite filter_app, length_app, filter_cons, filter_nil.
  by destruct (arms_timeout ev).
Qed.

Lemma settle_promise o s :
  promise (settle o s) = match promise s with Pending => o | x => x end.
Proof. unfold settle. by destruct (promise s) eqn:E. Qed.

Lemma settle_rest o s :
  now (settle o s) = now s ∧ timers (settle o s) = timers s ∧
  next_id (settle o s) = next_id s ∧ timeoutId (settle o s) = timeoutId s ∧
  trace (settle o s) = trace s.
Proof. unfold settle. by destruct (promise s). Qed.

Lemma sound_log ev s :
  arms_timeout ev = false → sound s → sound (log ev s).
Proof.
  intros Hev [H1 H2 H3 H4]. split; simpl; try done.
  - intros Hn. rewrite created_app, Hev. destruct (H2 Hn) as (? & ?).
    split; [lia|done].
  - intros id Hid. rewrite created_app, Hev. destruct (H3 id Hid) as (? & ? & ?).
    split; [done|]. split; [lia|done].
  - intros Hp. destruct (H4 Hp) as [Ha Hb]. split; [done|].
    intros id Hid. apply elem_of_app. left. by apply Hb.
Qed.

(** Settling after the time-out timer was disarmed and the call to
    [clearTimeout] recorded. *)
Lemma sound_settle o s :
  sound s →
  (∀ t, t ∈ timers s → callback t ≠ OnTimeout) →
  (∀ id, timeoutId s = Some id → ClearTimeout id ∈ trace s) →
  sound (settle o s).
Proof.
  intros [H1 H2 H3 H4] Hno Hcl.
  destruct (settle_rest o s) as (_ & Et & En & Ei & Er).
  split; rewrite ?Et, ?En, ?Ei, ?Er; done.
Qed.

Lemma sound_clear_if_set s :
  sound s →
  let s' := clear_if_set s in
  sound s' ∧
  (∀ t, t ∈ timers s' → callback t ≠ OnTimeout) ∧
  (∀ id, timeoutId s' = Some id → ClearTimeout id ∈ trace s') ∧
  promise s' = promise s ∧ timeoutId s' = timeoutId s ∧
  timers s' ⊆ timers s.
Proof.
  intros Hs. pose proof Hs as [H1 H2 H3 H4]. unfold clear_if_set.
  destruct (timeoutId s) as [[|n]|] eqn:Hid; simpl.
  - by destruct (H3 0 eq_refl).
  - destruct (H3 (S n) eq_refl) as (_ & Hc & Ht).
    assert (∀ t, t ∈ filter (λ t, timer_id t ≠ S n) (timers s) →
                 callback t ≠ OnTimeout) as Hno.
    { intros t [Hne Hin]%list_elem_of_filter Hcb. by apply Hne, Ht. }
    assert (ClearTimeout (S n) ∈ trace s ++ [ClearTimeout (S n)]) as Hcl.
    { apply elem_of_app. right. by apply list_elem_of_singleton. }
    split; [split; simpl|split; [done|split; [|split; [done|split]]]].
    + done.
    + intros Hn. by rewrite Hid in Hn.
    + intros id Heq. rewrite Hid in Heq. injection Heq as <-.
      split; [done|]. split; [by rewrite created_app, Hc|].
      intros t [_ Hin]%list_elem_of_filter. by apply Ht.
    + intros Hp. split; [done|]. intros id Heq. rewrite Hid in Heq.
      by injection Heq as <-.
    + intros id Heq. rewrite Hid in Heq. by injection Heq as <-.
    + done.
    + intros t [_ Hin]%list_elem_of_filter. done.
  - destruct (H2 eq_refl) as (Hc & He).
    split; [done|]. split; [by rewrite He; intros t ?%elem_of_nil|].
    split; [|done]. intros id Heq. by rewrite Hid in Heq.
Qed.

Lemma sound_resume d s :
  sound s → is_Some (timeoutId s) → sound (setTimeout Resume d s).1.
Proof.
  intros [H1 H2 H3 H4] [id0 Hid0]. split; simpl.
  - done.
  - intros Hn. by rewrite Hid0 in Hn.
  - intros id Hid. destruct (H3 id Hid) as (Hne & Hc & Ht).
    split; [done|]. split; [by rewrite created_app, Hc|].
    intros t [Hin|Hin%list_elem_of_singleton]%elem_of_app Hcb.
    + by apply Ht.
    + by subst t.
  - intros Hp. destruct (H4 Hp) as [Hno Hcl]. split.
    + intros t [Hin|Hin%list_elem_of_singleton]%elem_of_app.
      * by apply Hno.
      * by subst t.
    + intros id Hid. apply elem_of_app. left. by apply Hcl.
Qed.

(** Arming the time-out timer: [timeoutId = setTimeout(..., timeout)]. *)
Definition arm (d : nat) (s : Loop) : Loop :=
  let '(s, id) := setTimeout OnTimeout d s in
  mkLoop (now s) (timers s) (next_id s) (Some id) (promise s) (trace s).

Lemma sound_arm d s :
  sound s → timeoutId s = None → promise s = Pending → sound (arm d s).
Proof.
  intros [H1 H2 H3 H4] Hn Hp. destruct (H2 Hn) as [Hc He].
  split; simpl.
  - done.
  - done.
  - intros id [= <-]. split; [done|]. split; [by rewrite created_app, Hc|].
    rewrite He. by intros t ->%list_elem_of_singleton.
  - by rewrite Hp.
Qed.

(** The time-out timer is out of the way and [clearTimeout] was
    called on it if it was ever created. *)
Definition disarmed (s : Loop) : Prop :=
  sound s ∧
  (∀ t, t ∈ timers s → callback t ≠ OnTimeout) ∧
  (∀ id, timeoutId s = Some id → ClearTimeout id ∈ trace s).

Lemma disarmed_clear s : sound s → disarmed (clear_if_set s).
Proof. intros Hs. by destruct (sound_clear_if_set s Hs) as (? & ? & ? & _). Qed.

Lemma disarmed_log ev s :
  arms_timeout ev = false → disarmed s → disarmed (log ev s).
Proof.
  intros Hev (Hs & Hno & Hcl). split; [by apply sound_log|]. split; [done|].
  intros id Hid. apply elem_of_app. left. by apply Hcl.
Qed.

Lemma disarmed_logs evs s :
  Forall (λ ev, arms_timeout ev = false) evs → disarmed s →
  disarmed (foldl (λ s ev, log ev s) s evs).
Proof.
  intros Hevs. revert s. induction Hevs as [|ev evs Hev _ IH]; intros s Hd; [done|].
  simpl. apply IH. by apply disarmed_log.
Qed.

Lemma disarmed_settle o s : disarmed s → disarmed (settle o s).
Proof.
  intros (Hs & Hno & Hcl). split; [by apply sound_settle|].
  destruct (settle_rest o s) as (_ & Et & _ & Ei & Er).
  by rewrite Et, Ei, Er.
Qed.

Section WithWorld.
Variable world : nat → Inst * option Turnstile.
Variables timeout retry : nat.

Local Abbreviation checkLoaded := (Poll.checkLoaded world timeout retry).
Local Abbreviation step := (Poll.step world timeout retry).
Local Abbreviation start := (Poll.start world timeout retry).
Local Abbreviation run := (Poll.run world timeout retry).
Local Abbreviation solved_now := (Poll.solved_now world).
Local Abbreviation getResponse_now := (Poll.getResponse_now world).

(** The time between two checks, and the instant the time-out timer is
    due: the delays the host gives [retry] and [timeout]. *)
Local Abbreviation pause := (host_delay retry).
Local Abbreviation deadline := (host_delay timeout).

(** What the branch of line 199 settles the promise with at instant
    [t], if nothing settled it before. *)
Definition answer (t : nat) : Settlement :=
  match getResponse_now t with
  | Returns token =>
      if truthy token then Resolved token else Rejected "No response received"
  | Throws _ => Rejected "Failed to get response"
  end.

Lemma checkLoaded_unsolved s :
  solved_now (now s) = false →
  checkLoaded s =
    (setTimeout Resume retry
       (match timeoutId s with
        | Some (S _) => log (Checked (now s)) s
        | _ => arm timeout (log (Checked (now s)) s)
        end)).1.
Proof.
  intros H. unfold Poll.checkLoaded. simpl. rewrite H.
  by destruct (timeoutId s) as [[|n]|].
Qed.

(** The solved branch: some bookkeeping, then one call that settles. *)
Lemma checkLoaded_solved s :
  solved_now (now s) = true →
  ∃ evs, Forall (λ ev, arms_timeout ev = false) evs ∧
         checks evs = [] ∧
         checkLoaded s =
           settle (answer (now s))
             (foldl (λ s ev, log ev s)
                (clear_if_set
                   (log (GetResponse (widgetId (world (now s)).1))
                      (log (Checked (now s)) s))) evs).
Proof.
  intros H. unfold Poll.checkLoaded, answer, resolve, reject. simpl. rewrite H.
  destruct (getResponse_now (now s)) as [token|err].
  - destruct (truthy token).
    + exists [CallResolve token]. repeat constructor.
    + exists [CallReject "No response received"]. repeat constructor.
  - exists [ConsoleWarn "Failed to get response"; CallReject "Failed to get response"].
    repeat constructor.
Qed.

Lemma checkLoaded_sound s :
  sound s → (timeoutId s = None → promise s = Pending) →
  sound (checkLoaded s).
Proof.
  intros Hs Hp. destruct (solved_now (now s)) eqn:Hsol.
  - destruct (checkLoaded_solved s Hsol) as (evs & Hevs & _ & ->).
    apply disarmed_settle, disarmed_logs; [done|].
    apply disarmed_clear. by do 2 (apply sound_log; [done|]).
  - rewrite checkLoaded_unsolved by done.
    assert (sound (log (Checked (now s)) s)) as Hl by by apply sound_log.
    destruct (timeoutId s) as [[|n]|] eqn:Hid.
    + by destruct (sound_set s Hs 0 Hid).
    + apply sound_resume; [done|]. simpl. by rewrite Hid.
    + apply sound_resume; [|by eexists].
      apply sound_arm; [done|done|]. by apply Hp.
Qed.

Lemma onTimeout_sound s : sound s → sound (onTimeout s).
Proof.
  intros Hs. unfold onTimeout, reject.
  by apply disarmed_settle, disarmed_log, disarmed_clear.
Qed.

Lemma next_timer_elem ts t : next_timer ts = Some t → t ∈ ts.
Proof.
  revert t. induction ts as [|u ts IH]; intros t; simpl; [done|].
  destruct (next_timer ts) as [v|].
  - destruct (due v <? due u); intros [= <-].
    + apply elem_of_cons. right. by apply IH.
    + apply elem_of_cons. by left.
  - intros [= <-]. apply elem_of_cons. by left.
Qed.

Lemma step_sound s : sound s → sound (step s).
Proof.
  intros Hs. unfold Poll.step.
  destruct (next_timer (timers s)) as [t|] eqn:Ht; [|done].
  apply next_timer_elem in Ht.
  set (s' := mkLoop _ _ _ _ _ _).
  assert (is_Some (timeoutId s)) as [id Hid].
  { destruct (timeoutId s) eqn:Hid; [by eexists|].
    destruct (sound_unset s Hs Hid) as [_ He]. rewrite He in Ht.
    by apply elem_of_nil in Ht. }
  assert (sound s') as Hs'.
  { destruct Hs as [H1 H2 H3 H4]. split; simpl.
    - done.
    - intros Hn. by rewrite Hid in Hn.
    - intros id' Hid'. destruct (H3 id' Hid') as (? & ? & Hx).
      split; [done|]. split; [done|].
      intros u [_ Hin]%list_elem_of_filter. by apply Hx.
    - intros Hp. destruct (H4 Hp) as [Hno Hcl]. split; [|done].
      intros u [_ Hin]%list_elem_of_filter. by apply Hno. }
  destruct (callback t); simpl.
  - by apply onTimeout_sound.
  - apply checkLoaded_sound; [done|]. simpl. intros Hn. by rewrite Hid in Hn.
Qed.

Lemma start_sound : sound start.
Proof.
  apply checkLoaded_sound; [|done]. split; simpl; done.
Qed.

Lemma run_sound n : sound (run n).
Proof.
  induction n as [|n IH]; [apply start_sound|]. simpl. by apply step_sound.
Qed.

(** *** A settled promise stays as it is *)

Lemma logs_promise evs s : promise (foldl (λ s ev, log ev s) s evs) = promise s.
Proof. revert s. induction evs as [|ev evs IH]; intros s; [done|]. simpl. by rewrite IH. Qed.

Lemma clear_if_set_promise s : promise (clear_if_set s) = promise s.
Proof. unfold clear_if_set. by destruct (timeoutId s) as [[|n]|]. Qed.

Lemma checkLoaded_promise s :
  promise (checkLoaded s) =
    if solved_now (now s)
    then match promise s with Pending => answer (now s) | x => x end
    else promise s.
Proof.
  destruct (solved_now (now s)) eqn:Hsol.
  - destruct (checkLoaded_solved s Hsol) as (evs & _ & _ & ->).
    by rewrite settle_promise, logs_promise, clear_if_set_promise.
  - rewrite checkLoaded_unsolved by done.
    by destruct (timeoutId s) as [[|n]|].
Qed.

Lemma checkLoaded_now s : now (checkLoaded s) = now s.
Proof.
  destruct (solved_now (now s)) eqn:Hsol.
  - destruct (checkLoaded_solved s Hsol) as (evs & _ & _ & ->).
    destruct (settle_rest (answer (now s))
      (foldl (λ s ev, log ev s)
         (clear_if_set (log (GetResponse (widgetId (world (now s)).1))
                            (log (Checked (now s)) s))) evs)) as (-> & _).
    clear. induction evs as [|ev evs IH] using rev_ind.
    + simpl. unfold clear_if_set. simpl. by destruct (timeoutId s) as [[|n]|].
    + by rewrite foldl_app.
  - rewrite checkLoaded_unsolved by done.
    by destruct (timeoutId s) as [[|n]|].
Qed.

Lemma onTimeout_promise s :
  promise (onTimeout s) =
    match promise s with Pending => Rejected "Timeout" | x => x end.
Proof.
  unfold onTimeout, reject. rewrite settle_promise. simpl.
  by rewrite clear_if_set_promise.
Qed.

Lemma step_settled s : promise s ≠ Pending → promise (step s) = promise s.
Proof.
  intros Hp. unfold Poll.step.
  destruct (next_timer (timers s)) as [t|]; [|done].
  destruct (callback t); simpl.
  - rewrite onTimeout_promise. simpl. by destruct (promise s).
  - rewrite checkLoaded_promise. simpl.
    destruct (solved_now _); [|done]. by destruct (promise s).
Qed.

Lemma run_settled n m :
  promise (run n) ≠ Pending → n ≤ m → promise (run m) = promise (run n).
Proof.
  intros Hp Hle. induction Hle as [|m Hle IH]; [done|].
  simpl. rewrite step_settled; [done|]. by rewrite IH.
Qed.

Lemma run_pending_before n m :
  promise (run n) = Pending → m ≤ n → promise (run m) = Pending.
Proof.
  intros Hp Hle. destruct (decide (promise (run m) = Pending)) as [|Hne]; [done|].
  rewrite <- Hp. symmetry. by apply run_settled.
Qed.

(** *** Between the call and the time-out *)

(** The routine after its check number [k] (counting from [0]) found
    the widget unsolved, the promise still pending: the clock reads
    [k * pause], the time-out timer, created by check [0], is armed for
    [deadline], and the next check is armed for [(k + 1) * pause]. *)
Record waiting (k : nat) (s : Loop) : Prop := {
  waiting_now : now s = k * pause;
  waiting_timers :
    timers s = [mkTimer 1 deadline OnTimeout;
                mkTimer (k + 2) ((k + 1) * pause) Resume];
  waiting_next : next_id s = k + 3;
  waiting_id : timeoutId s = Some 1;
  waiting_promise : promise s = Pending;
  waiting_checks : checks (trace s) = (λ j, j * pause) <$> seq 0 (S k);
}.

Lemma checks_app tr ev :
  checks (tr ++ [ev]) =
    checks tr ++ match ev with Checked t => [t] | _ => [] end.
Proof. unfold checks. rewrite omap_app. by destruct ev. Qed.

Lemma start_waiting : solved_now 0 = false → waiting 0 start.
Proof.
  intros H. unfold Poll.start. rewrite checkLoaded_unsolved by done.
  split; simpl; try done. repeat f_equal; lia.
Qed.

Lemma fire_resume k s :
  waiting k s → (k + 1) * pause < deadline →
  step s = checkLoaded (mkLoop ((k + 1) * pause) [mkTimer 1 deadline OnTimeout]
                               (k + 3) (Some 1) Pending (trace s)).
Proof.
  intros [Hn Ht Hx Hi Hp Hc] Hlt. unfold Poll.step. rewrite Ht.
  cbn [next_timer due]. 
  replace ((k + 1) * pause <? deadline) with true
    by (symmetry; by apply Nat.ltb_lt).
  cbn [callback run_callback timer_id due]. f_equal.
  rewrite Hn, Hx, Hi, Hp. f_equal.
  - lia.
  - rewrite filter_cons_True by (simpl; lia).
    rewrite filter_cons_False by (simpl; lia). done.
Qed.

Lemma fire_timeout k s :
  waiting k s → deadline ≤ (k + 1) * pause →
  step s = onTimeout (mkLoop (Nat.max (k * pause) deadline)
                             [mkTimer (k + 2) ((k + 1) * pause) Resume]
                             (k + 3) (Some 1) Pending (trace s)).
Proof.
  intros [Hn Ht Hx Hi Hp Hc] Hle. unfold Poll.step. rewrite Ht.
  cbn [next_timer due].
  replace ((k + 1) * pause <? deadline) with false
    by (symmetry; apply Nat.ltb_ge; lia).
  cbn [callback run_callback timer_id due]. f_equal.
  rewrite Hn, Hx, Hi, Hp. f_equal.
  rewrite filter_cons_False by (simpl; lia).
  rewrite filter_cons_True by (simpl; lia). done.
Qed.

Lemma logs_checks evs s :
  checks (trace (foldl (λ s ev, log ev s) s evs)) = checks (trace s) ++ checks evs.
Proof.
  revert s. induction evs as [|ev evs IH]; intros s; simpl.
  - by rewrite app_nil_r.
  - rewrite IH. simpl. rewrite checks_app, <- app_assoc. f_equal.
    unfold checks. simpl. by destruct ev.
Qed.

Lemma clear_if_set_checks s : checks (trace (clear_if_set s)) = checks (trace s).
Proof.
  unfold clear_if_set. destruct (timeoutId s) as [[|n]|]; try done.
  simpl. by rewrite checks_app, app_nil_r.
Qed.

(** Every run of [checkLoaded] is one more check, at the current instant. *)
Lemma checkLoaded_checks s :
  checks (trace (checkLoaded s)) = checks (trace s) ++ [now s].
Proof.
  destruct (solved_now (now s)) eqn:Hsol.
  - destruct (checkLoaded_solved s Hsol) as (evs & _ & Hevs & ->).
    destruct (settle_rest (answer (now s))
      (foldl (λ s ev, log ev s)
         (clear_if_set (log (GetResponse (widgetId (world (now s)).1))
                            (log (Checked (now s)) s))) evs)) as (_ & _ & _ & _ & ->).
    rewrite logs_checks, Hevs, app_nil_r, clear_if_set_checks. simpl.
    by rewrite !checks_app, app_nil_r.
  - rewrite checkLoaded_unsolved by done.
    destruct (timeoutId s) as [[|n]|]; simpl;
      by rewrite !checks_app, ?app_nil_r.
Qed.

Lemma check_times_snoc k :
  (λ j, j * pause) <$> seq 0 (S (k + 1))
  = ((λ j, j * pause) <$> seq 0 (S k)) ++ [(k + 1) * pause].
Proof.
  replace (S (k + 1)) with (S k + 1) by lia.
  rewrite seq_app, fmap_app. f_equal.
  change (seq (0 + S k) 1) with [0 + S k]. cbn [fmap list_fmap].
  f_equal. lia.
Qed.

Lemma step_waiting k s :
  waiting k s → (k + 1) * pause < deadline →
  solved_now ((k + 1) * pause) = false →
  waiting (k + 1) (step s).
Proof.
  intros Hw Hlt Hsol. rewrite (fire_resume k s Hw Hlt).
  destruct Hw as [Hn Ht Hx Hi Hp Hc]. split.
  - by rewrite checkLoaded_now.
  - rewrite checkLoaded_unsolved by done. simpl.
    do 2 f_equal. f_equal; lia.
  - rewrite checkLoaded_unsolved by done. simpl. lia.
  - by rewrite checkLoaded_unsolved by done.
  - by rewrite checkLoaded_unsolved by done.
  - rewrite checkLoaded_checks. cbn [trace now]. rewrite Hc.
    symmetry. apply check_times_snoc.
Qed.

(** While every check so far found the widget unsolved and check [k]
    came before the time-out, [k] turns of the event loop lead to
    [waiting k]. *)
Lemma run_waiting k :
  (∀ j, j ≤ k → solved_now (j * pause) = false) →
  k = 0 ∨ k * pause < deadline →
  waiting k (run k).
Proof.
  induction k as [|k IH]; intros Hsol Hk.
  - apply start_waiting. by apply (Hsol 0).
  - destruct Hk as [|Hk]; [done|].
    replace (S k) with (k + 1) in * by lia.
    replace (run (k + 1)) with (step (run k))
      by (by replace (k + 1) with (S k) by lia).
    apply step_waiting; [|done|by apply Hsol].
    apply IH; [intros j Hj; apply Hsol; lia|]. right. nia.
Qed.

Local Abbreviation settles := (Poll.settles world timeout retry).

Lemma answer_settled t : answer t ≠ Pending.
Proof.
  unfold answer. destruct (getResponse_now t) as [token|err]; [|done].
  by destruct (truthy token).
Qed.

(** A promise settles once: with one outcome, at one instant. *)
Lemma settles_unique o t o' t' : settles o t → settles o' t' → o = o' ∧ t = t'.
Proof.
  intros [Ho (n & Hp & Hn & Hb & Ha)] [Ho' (n' & Hp' & Hn' & Hb' & Ha')].
  assert (n = n') as <-.
  { destruct (Nat.lt_trichotomy n n') as [Hlt|[?|Hlt]]; [|done|].
    - specialize (Hb' n Hlt). congruence.
    - specialize (Hb n' Hlt). congruence. }
  split; congruence.
Qed.

(** The first check that finds the widget solved settles the promise,
    if it comes before the time-out timer fires. *)
Lemma solved_check_settles k :
  k = 0 ∨ k * pause < deadline →
  solved_now (k * pause) = true →
  (∀ j, j < k → solved_now (j * pause) = false) →
  settles (answer (k * pause)) (k * pause).
Proof.
  intros Hk Hsol Hbefore. split; [apply answer_settled|].
  exists k.
  assert (promise (run k) = answer (k * pause) ∧ now (run k) = k * pause ∧
          ∀ m, m < k → promise (run m) = Pending) as (Hp & Hn & Hm).
  { destruct k as [|k].
    - unfold Poll.run, Poll.start. simpl.
      rewrite checkLoaded_promise, checkLoaded_now. simpl.
      change (0 * pause) with 0 in Hsol. rewrite Hsol.
      repeat split. intros m Hm. lia.
    - destruct Hk as [|Hk]; [done|].
      assert (waiting k (run k)) as Hw.
      { apply run_waiting; [|right; nia].
        intros j Hj. apply Hbefore. lia. }
      replace (S k) with (k + 1) in * by lia.
      replace (run (k + 1)) with (step (run k))
        by (by replace (k + 1) with (S k) by lia).
      rewrite (fire_resume k _ Hw Hk).
      rewrite checkLoaded_promise, checkLoaded_now. simpl. rewrite Hsol.
      repeat split. intros m Hm.
      apply (run_pending_before k); [by destruct Hw|lia]. }
  repeat split; try done.
  intros m Hle. rewrite <- Hp. apply run_settled; [|done].
  rewrite Hp. apply answer_settled.
Qed.

(** The index of the last check that comes before the time-out. *)
Definition last_check : nat := (deadline - 1) / pause.

Lemma before_timeout j :
  (j = 0 ∨ j * pause < deadline) ↔ j ≤ last_check.
Proof.
  pose proof (host_delay_pos retry) as Hr. unfold last_check. split.
  - intros [->|Hlt]; [lia|].
    apply Nat.div_le_lower_bound; lia.
  - intros Hle.
    pose proof (Nat.Div0.mul_div_le (deadline - 1) pause) as Hq.
    destruct j as [|j]; [by left|right]. nia.
Qed.

Lemma after_last_check : deadline ≤ (last_check + 1) * pause.
Proof.
  pose proof (host_delay_pos retry) as Hr. unfold last_check.
  pose proof (Nat.mul_succ_div_gt (deadline - 1) pause ltac:(lia)) as Hq.
  nia.
Qed.

(** When no check before the time-out finds the widget solved, the
    timer fires at [deadline] and rejects. *)
Lemma unsolved_times_out :
  (∀ j, j = 0 ∨ j * pause < deadline → solved_now (j * pause) = false) →
  settles (Rejected "Timeout") deadline.
Proof.
  intros Hnever. split; [done|].
  set (k := last_check).
  assert (waiting k (run k)) as Hw.
  { apply run_waiting; [|by apply before_timeout].
    intros j Hj. apply Hnever. by apply before_timeout. }
  exists (S k). simpl.
  rewrite (fire_timeout k _ Hw after_last_check).
  assert (k * pause ≤ deadline) as Hle.
  { destruct (proj2 (before_timeout k) (Nat.le_refl _)) as [Hz|Hlt]; [|lia].
    rewrite Hz. change (0 * pause) with 0. lia. }
  assert (promise (onTimeout
            {| now := Nat.max (k * pause) deadline;
               timers := [{| timer_id := k + 2; due := (k + 1) * pause;
                             callback := Resume |}];
               next_id := k + 3; timeoutId := Some 1; promise := Pending;
               trace := trace (run k) |}) = Rejected "Timeout") as Hp.
  { by rewrite onTimeout_promise. }
  split; [done|]. split.
  { unfold onTimeout, reject.
    destruct (settle_rest (Rejected "Timeout")
      (log (CallReject "Timeout")
         (clear_if_set
            {| now := Nat.max (k * pause) deadline;
               timers := [{| timer_id := k + 2; due := (k + 1) * pause;
                             callback := Resume |}];
               next_id := k + 3; timeoutId := Some 1; promise := Pending;
               trace := trace (run k) |}))) as (-> & _).
    simpl. lia. }
  split.
  - intros m Hm. apply (run_pending_before k); [by destruct Hw|lia].
  - intros m Hm. rewrite <- Hp.
    rewrite <- (fire_timeout k _ Hw after_last_check).
    change (step (run k)) with (run (S k)).
    apply run_settled; [|done].
    change (run (S k)) with (step (run k)).
    by rewrite (fire_timeout k _ Hw after_last_check), Hp.
Qed.

(** Up to any bound, either some check is the first to find the widget
    solved, or none does. *)
Lemma first_solved_check n :
  (∃ k, k < n ∧ solved_now (k * pause) = true
          ∧ ∀ j, j < k → solved_now (j * pause) = false)
  ∨ (∀ k, k < n → solved_now (k * pause) = false).
Proof.
  induction n as [|n [(k & Hk & Hs & Hb)|IH]].
  - right. intros k Hk. lia.
  - left. exists k. split; [lia|done].
  - destruct (solved_now (n * pause)) eqn:Hn.
    + left. exists n. split; [lia|]. split; [done|]. intros j Hj. by apply IH.
    + right. intros k Hk. destruct (decide (k = n)) as [->|]; [done|].
      apply IH. lia.
Qed.

(** The promise settles, no later than the time-out timer is due. *)
Lemma settles_by_timeout : ∃ o t, settles o t ∧ t ≤ deadline.
Proof.
  destruct (first_solved_check (S last_check)) as [(k & Hk & Hs & Hb)|Hnone].
  - assert (k = 0 ∨ k * pause < deadline) as Hbt by (apply before_timeout; lia).
    exists (answer (k * pause)), (k * pause). split.
    + by apply solved_check_settles.
    + destruct Hbt as [->|]; [change (0 * pause) with 0|]; lia.
  - exists (Rejected "Timeout"), deadline. split; [|done].
    apply unsolved_times_out.
    intros j Hj. apply Hnone. apply before_timeout in Hj; lia.
Qed.

(** *** The check loop after the promise is settled *)

(** The host hands out each timer id once. *)
Record fresh_ids (s : Loop) : Prop := {
  ids_below : ∀ t, t ∈ timers s → timer_id t < next_id s;
  ids_distinct :
    ∀ t u, t ∈ timers s → u ∈ timers s → timer_id t = timer_id u → t = u;
}.

Lemma fresh_sub s s' :
  fresh_ids s → timers s' ⊆ timers s → next_id s' = next_id s → fresh_ids s'.
Proof.
  intros [Hb Hd] Hsub Hn. split.
  - intros t Ht. rewrite Hn. by apply Hb, Hsub.
  - intros t u Ht Hu. apply Hd; by apply Hsub.
Qed.

Lemma fresh_setTimeout cb d s : fresh_ids s → fresh_ids (setTimeout cb d s).1.
Proof.
  intros [Hb Hd]. split; simpl.
  - intros t [Ht|Ht%list_elem_of_singleton]%elem_of_app.
    + specialize (Hb t Ht). lia.
    + subst t. simpl. lia.
  - intros t u [Ht|Ht%list_elem_of_singleton]%elem_of_app
                [Hu|Hu%list_elem_of_singleton]%elem_of_app; subst; simpl; intros He.
    + by apply Hd.
    + specialize (Hb t Ht). lia.
    + specialize (Hb u Hu). lia.
    + done.
Qed.

Lemma fresh_checkLoaded s : fresh_ids s → fresh_ids (checkLoaded s).
Proof.
  intros Hf. destruct (solved_now (now s)) eqn:Hsol.
  - destruct (checkLoaded_solved s Hsol) as (evs & _ & _ & ->).
    destruct (settle_rest (answer (now s))
      (foldl (λ s ev, log ev s)
         (clear_if_set (log (GetResponse (widgetId (world (now s)).1))
                            (log (Checked (now s)) s))) evs)) as (_ & Et & En & _).
    assert (∀ s0, timers (foldl (λ s ev, log ev s) s0 evs) = timers s0 ∧
                  next_id (foldl (λ s ev, log ev s) s0 evs) = next_id s0) as Hlogs.
    { clear. induction evs as [|ev evs IH]; intros s0; [done|]. simpl.
      by destruct (IH (log ev s0)) as [-> ->]. }
    destruct (Hlogs (clear_if_set (log (GetResponse (widgetId (world (now s)).1))
                                       (log (Checked (now s)) s)))) as [El En'].
    apply (fresh_sub s); [done| |].
    + rewrite Et, El. unfold clear_if_set. simpl.
      destruct (timeoutId s) as [[|n]|]; simpl; try done.
      intros t [_ Hin]%list_elem_of_filter. done.
    + rewrite En, En'. unfold clear_if_set. simpl.
      by destruct (timeoutId s) as [[|n]|].
  - rewrite checkLoaded_unsolved by done. apply fresh_setTimeout.
    assert (fresh_ids (arm timeout (log (Checked (now s)) s))) as Harm.
    { apply (fresh_sub (setTimeout OnTimeout timeout (log (Checked (now s)) s)).1);
        [|done|done].
      apply fresh_setTimeout. by apply (fresh_sub s). }
    destruct (timeoutId s) as [[|n]|]; [done| |done].
    by apply (fresh_sub s).
Qed.

Lemma fresh_onTimeout s : fresh_ids s → fresh_ids (onTimeout s).
Proof.
  intros Hf. unfold onTimeout, reject.
  destruct (settle_rest (Rejected "Timeout")
             (log (CallReject "Timeout") (clear_if_set s))) as (_ & Et & En & _).
  apply (fresh_sub s); [done| |].
  - rewrite Et. unfold clear_if_set. simpl.
    destruct (timeoutId s) as [[|n]|]; simpl; try done.
    intros t [_ Hin]%list_elem_of_filter. done.
  - rewrite En. unfold clear_if_set. simpl.
    by destruct (timeoutId s) as [[|n]|].
Qed.

Lemma fresh_step s : fresh_ids s → fresh_ids (step s).
Proof.
  intros Hf. unfold Poll.step.
  destruct (next_timer (timers s)) as [t|]; [|done].
  set (s' := mkLoop _ _ _ _ _ _).
  assert (fresh_ids s') as Hf'.
  { apply (fresh_sub s); [done| |done]. simpl.
    intros u [_ Hin]%list_elem_of_filter. done. }
  destruct (callback t); simpl.
  - by apply fresh_onTimeout.
  - by apply fresh_checkLoaded.
Qed.

Lemma fresh_run n : fresh_ids (run n).
Proof.
  induction n as [|n IH]; [|by apply fresh_step].
  apply fresh_checkLoaded. split; simpl.
  - intros t Ht. by apply elem_of_nil in Ht.
  - intros t u Ht. by apply elem_of_nil in Ht.
Qed.

(** A next check is armed. *)
Definition polling (s : Loop) : Prop :=
  ∃ r, r ∈ timers s ∧ callback r = Resume.

Lemma checkLoaded_polling s :
  solved_now (now s) = false → polling (checkLoaded s).
Proof.
  intros Hsol. rewrite checkLoaded_unsolved by done.
  eexists. split.
  - simpl. apply elem_of_app. right. by apply list_elem_of_singleton.
  - reflexivity.
Qed.

Lemma step_polling s :
  (∀ t, solved_now t = false) →
  sound s → fresh_ids s → polling s → polling (step s).
Proof.
  intros Hnever Hs Hf (r & Hr & Hcb). unfold Poll.step.
  destruct (next_timer (timers s)) as [t|] eqn:Ht; [|by exists r].
  apply next_timer_elem in Ht.
  destruct (callback t) eqn:Hct; simpl; [|by apply checkLoaded_polling].
  assert (timer_id r ≠ timer_id t) as Hne.
  { intros He. apply (ids_distinct s Hf r t Hr Ht) in He. congruence. }
  exists r. split; [|done]. unfold onTimeout, reject.
  destruct (settle_rest (Rejected "Timeout")
    (log (CallReject "Timeout")
       (clear_if_set
          {| now := Nat.max (now s) (due t);
             timers := filter (λ u, timer_id u ≠ timer_id t) (timers s);
             next_id := next_id s; timeoutId := timeoutId s;
             promise := promise s; trace := trace s |}))) as (_ & -> & _).
  unfold clear_if_set. simpl.
  destruct (timeoutId s) as [[|n]|] eqn:Hid; simpl.
  - by apply list_elem_of_filter.
  - destruct (sound_set s Hs (S n) Hid) as (_ & _ & Hx).
    apply list_elem_of_filter. split.
    + by rewrite <- (Hx t Ht Hct).
    + by apply list_elem_of_filter.
  - by apply list_elem_of_filter.
Qed.

(** The routine keeps polling for as long as the widget stays
    unsolved, also after the time-out has rejected the promise: at every
    turn of the event loop the next check is armed. *)
Theorem polling_outlives_timeout :
  (∀ t, solved_now t = false) →
  ∀ n, polling (run n).
Proof.
  intros Hnever n. induction n as [|n IH].
  - by apply checkLoaded_polling.
  - apply step_polling; [done|apply run_sound|apply fresh_run|done].
Qed.

(** With a widget id held and the library on [window] throughout, the
    condition of line 199 is the solved flag. *)
Definition widget_present : Prop :=
  ∀ t, truthy (widgetId (world t).1) = true ∧ is_Some (world t).2.

Lemma solved_now_flag t :
  widget_present → solved_now t = widgetSolved (world t).1.
Proof.
  intros Hw. destruct (Hw t) as [Hid Hlib]. unfold Poll.solved_now.
  rewrite Hid, bool_decide_eq_true_2 by done.
  by destruct (widgetSolved (world t).1).
Qed.

(** C2, as the code has it. [getResponsePromise(timeout, retry)] on a
    component that holds a widget id, with the library on [window].
    [pause] is the delay the host gives [retry] and [deadline] the one
    it gives [timeout]: the argument itself from [1] to [2 ^ 31 - 1]
    milliseconds, [1] otherwise. The solved flag is read at the checks
    only: at the call and then every [pause] milliseconds for as long as
    it is found [false], check number [k] at instant [k * pause]. The
    first check that finds the flag [true], be it the one at the call or
    a later one that comes before the time-out timer fires, settles the
    promise at that instant: fulfilled with the token when the external
    [getResponse] returns a truthy one, rejected with "No response
    received" when it returns an empty one, rejected with "Failed to get
    response" when it throws. When no check before the time-out timer
    fires finds the flag [true], the promise is rejected with "Timeout"
    at [deadline], whatever the flag was between two checks. *)
Theorem C2_response_promise_outcomes :
  widget_present →
  (∀ k, k = 0 ∨ k * pause < deadline →
        widgetSolved (world (k * pause)).1 = true →
        (∀ j, j < k → widgetSolved (world (j * pause)).1 = false) →
        (∀ token, getResponse_now (k * pause) = Returns token →
                  truthy token = true →
                  settles (Resolved token) (k * pause)) ∧
        (∀ token, getResponse_now (k * pause) = Returns token →
                  truthy token = false →
                  settles (Rejected "No response received") (k * pause)) ∧
        (∀ err, getResponse_now (k * pause) = Throws err →
                settles (Rejected "Failed to get response") (k * pause))) ∧
  ((∀ j, j = 0 ∨ j * pause < deadline →
         widgetSolved (world (j * pause)).1 = false) →
   settles (Rejected "Timeout") deadline) ∧
  (∀ k, k = 0 ∨ k * pause < deadline →
        (∀ j, j < k → widgetSolved (world (j * pause)).1 = false) →
        checks (trace (run k)) = (λ j, j * pause) <$> seq 0 (S k)).
Proof.
  intros Hw. split; [|split].
  - intros k Hk Hs Hb.
    assert (settles (answer (k * pause)) (k * pause)) as Hset.
    { apply solved_check_settles; [done| |].
      - by rewrite solved_now_flag.
      - intros j Hj. rewrite solved_now_flag by done. by apply Hb. }
    unfold answer in Hset. split; [|split].
    + intros token Ha Ht. by rewrite Ha, Ht in Hset.
    + intros token Ha Ht. by rewrite Ha, Ht in Hset.
    + intros err Ha. by rewrite Ha in Hset.
  - intros Hnever. apply unsolved_times_out.
    intros j Hj. rewrite solved_now_flag by done. by apply Hnever.
  - intros k Hk Hb. destruct k as [|k].
    + unfold Poll.run, Poll.start. simpl. by rewrite checkLoaded_checks.
    + destruct Hk as [|Hk]; [done|].
      assert (waiting k (run k)) as Hwait.
      { apply run_waiting; [|right; nia].
        intros j Hj. rewrite solved_now_flag by done. apply Hb. lia. }
      replace (S k) with (k + 1) in * by lia.
      replace (run (k + 1)) with (step (run k))
        by (by replace (k + 1) with (S k) by lia).
      rewrite (fire_resume k _ Hwait Hk), checkLoaded_checks. cbn [trace now].
      rewrite (waiting_checks _ _ Hwait). symmetry. apply check_times_snoc.
Qed.

(** C3, as the code has it. Within one call of [getResponsePromise],
    whatever [timeout] and [retry] are and however many turns the event
    loop takes: at most one time-out timer is ever created; whenever the
    promise is settled, by fulfilment, by a failure or by the time-out,
    no time-out timer is armed any more and [clearTimeout] has been
    called on the one that was created; and the promise does settle, no
    later than the time-out timer is due: within [timeout] milliseconds
    of the call when [timeout] is at least [1], and within [timeout +
    retry] unless both are [0], where the host's shortest delay of [1]
    millisecond passes first. *)
Theorem C3_one_timer_and_settles :
  (∀ n, timeout_timers_created (trace (run n)) ≤ 1) ∧
  (∀ n, promise (run n) ≠ Pending →
        (∀ t, t ∈ timers (run n) → callback t ≠ OnTimeout) ∧
        (∀ id, timeoutId (run n) = Some id → ClearTimeout id ∈ trace (run n))) ∧
  (∃ o t, settles o t ∧ t ≤ deadline ∧
          (1 ≤ timeout → t ≤ timeout) ∧
          (0 < timeout + retry → t ≤ timeout + retry) ∧
          (timeout = 0 → t ≤ 1)).
Proof.
  split; [|split].
  - intros n. pose proof (run_sound n) as Hs.
    destruct (timeoutId (run n)) as [id|] eqn:Hid.
    + destruct (sound_set _ Hs id Hid) as (_ & -> & _). lia.
    + destruct (sound_unset _ Hs Hid) as (-> & _). lia.
  - intros n. apply sound_settled, run_sound.
  - destruct settles_by_timeout as (o & t & Hs & Ht).
    pose proof (host_delay_le timeout) as Hd.
    exists o, t. split; [done|]. split; [done|].
    split; [|split]; lia.
Qed.

End WithWorld.

Lemma C2_response_promise_outcomes_witness :
  Poll.settles (Fixtures.solved_from 3 (Returns (Lit "XYZ"))) 10 2
    (Resolved (Lit "XYZ")) 4 ∧
  Poll.settles Fixtures.never_solved 10 2 (Rejected "Timeout") 10.
Proof.
  split.
  - destruct (C2_response_promise_outcomes
                (Fixtures.solved_from 3 (Returns (Lit "XYZ"))) 10 2) as (H & _ & _).
    + intros t. split; [reflexivity|]. eexists. reflexivity.
    + destruct (H 2) as (Htoken & _ & _).
      * right. vm_compute. lia.
      * reflexivity.
      * intros j Hj. destruct j as [|[|j]]; [reflexivity|reflexivity|lia].
      * apply Htoken; reflexivity.
  - destruct (C2_response_promise_outcomes Fixtures.never_solved 10 2) as (_ & H & _).
    + intros t. split; [reflexivity|]. eexists. reflexivity.
    + apply H. intros j _. reflexivity.
Defined.

Lemma polling_outlives_timeout_witness :
  (∀ t, Poll.solved_now Fixtures.never_solved t = false) ∧
  Poll.settles Fixtures.never_solved 3 2 (Rejected "Timeout") 3 ∧
  ∀ n, polling (Poll.run Fixtures.never_solved 3 2 n).
Proof.
  split; [intros t; reflexivity|]. split.
  - apply (unsolved_times_out Fixtures.never_solved 3 2). intros j _. reflexivity.
  - apply (polling_outlives_timeout Fixtures.never_solved 3 2).
    intros t. reflexivity.
Defined.

(** C2, as the spec has it, fails for a widget solved between two
    checks: the flag is read only at the checks, so set at instant [3],
    after the check at [2] and before the time-out at [4], it is not
    seen in time and the promise is rejected with "Timeout", although
    the widget id and the library were there and a token was there to
    fetch. *)
Lemma C2_late_solve_is_missed :
  let w := Fixtures.solved_from 3 (Returns (Lit "XYZ")) in
  (∀ t, truthy (widgetId (w t).1) = true ∧ is_Some (w t).2) ∧
  widgetSolved (w 3).1 = true ∧ 3 < 4 ∧
  Poll.getResponse_now w 3 = Returns (Lit "XYZ") ∧
  Poll.settles w 4 2 (Rejected "Timeout") 4.
Proof.
  split; [intros t; split; [reflexivity|eexists; reflexivity]|].
  split; [reflexivity|]. split; [lia|]. split; [reflexivity|].
  apply (unsolved_times_out (Fixtures.solved_from 3 (Returns (Lit "XYZ"))) 4 2).
  intros j [->|Hj]; [reflexivity|].
  destruct j as [|[|j]]; [reflexivity|reflexivity|vm_compute in Hj; lia].
Qed.

(** C3, as the spec has it, fails with [timeout] and [retry] both [0]
    and the widget unsolved: the promise is still pending at instant
    [0], the time-out timer, asked for [0] milliseconds, fires after the
    host's shortest delay, and the promise is rejected at instant [1]. *)
Lemma C3_zero_delays_take_a_tick :
  promise (Poll.run Fixtures.never_solved 0 0 0) = Pending ∧
  Poll.settles Fixtures.never_solved 0 0 (Rejected "Timeout") 1 ∧
  ∀ o t, Poll.settles Fixtures.never_solved 0 0 o t → ¬ t ≤ 0 + 0.
Proof.
  assert (Poll.settles Fixtures.never_solved 0 0 (Rejected "Timeout") 1) as H.
  { apply (unsolved_times_out Fixtures.never_solved 0 0). intros j _. reflexivity. }
  split; [reflexivity|]. split; [exact H|].
  intros o t Hs Ht. destruct (settles_unique _ _ _ _ _ _ _ H Hs) as [_ <-]. lia.
Qed.

End PollFacts.

(* ===================================================================== *)
(** ** Across the operations of a component                               *)
(* ===================================================================== *)

Module ComponentFacts.
Import Js Widget WidgetFacts.

(** Runs any operation of the component on a symbolic state. *)
Ltac run_ops :=
  unfold exec, renderWidget, renderWidget_render, renderWidget_cleanup,
    successCallback, getResponse, reset, remove, render, execute, isExpired;
  run_m.

Section WithUtils.
Variable C : StyleKey → Style.
Variable G : Size → string.

(** [getResponse], [reset], [remove], [execute] and [isExpired] do
    nothing to a component that holds no widget id, or whose page or
    handle has no library: each logs one warning, calls nothing of the
    library, leaves the refs and the style as they are and returns
    [undefined]. *)
Theorem handle_inert_without_widget (e : Env) (i : Inst) :
  truthy (widgetId i) = false ∨ window_turnstile e = None ∨ turnstile e = None →
  (∃ message, getResponse e i = (i, [Warn message], Returns Undefined)) ∧
  (∃ message, reset C e i = (i, [Warn message], Returns tt)) ∧
  (∃ message, remove C e i = (i, [Warn message], Returns tt)) ∧
  (∃ message, execute C G e i = (i, [Warn message], Returns tt)) ∧
  (∃ message, isExpired e i = (i, [Warn message], Returns None)).
Proof.
  intros Hno.
  assert (∀ F (sel : Turnstile → option F),
            negb (has (turnstile e) sel) || negb (truthy (widgetId i))
              || negb (checkIfTurnstileLoaded e) = true) as Hg.
  { intros F sel. destruct Hno as [->|[Hw|Ht]].
    - simpl. by rewrite orb_true_r.
    - unfold checkIfTurnstileLoaded. rewrite Hw. simpl. by rewrite orb_true_r.
    - unfold has. by rewrite Ht. }
  unfold getResponse, reset, remove, execute, isExpired.
  split; [|split; [|split; [|split]]].
  - run_m. rewrite Hg. by eexists.
  - run_m. rewrite Hg. by eexists.
  - run_m. rewrite Hg. by eexists.
  - destruct (decide _); [|by eexists]. run_m.
    destruct (containerRef i); [|by eexists].
    rewrite Hg. by eexists.
  - run_m. rewrite Hg. by eexists.
Qed.

(** Who writes the solved flag, over every operation of the component:
    only the success callback sets it, and it always does; only
    [reset()] and [remove()] clear it. A new run of the render effect,
    its cleanup, [render()] and [execute()] leave a flag that is set in
    place. *)
Theorem solved_flag_writers (e : Env) (op : Op) (i : Inst) :
  let j := state (exec C G e op i) in
  (widgetSolved i = false → widgetSolved j = true → ∃ token, op = Success token) ∧
  (widgetSolved i = true → widgetSolved j = false → op = Reset ∨ op = Remove) ∧
  (∀ token, widgetSolved (state (exec C G e (Success token) i)) = true).
Proof.
  split; [|split].
  - destruct op; try (by eexists); run_ops; unfold has;
      repeat case_match; simplify_eq; simpl; congruence.
  - destruct op; auto; run_ops; unfold has;
      repeat case_match; simplify_eq; simpl; congruence.
  - intros token. run_ops. by destruct (onSuccess (props e)).
Qed.

(** The container style is an entry of [CONTAINER_STYLE_SET]. *)
Definition styled (i : Inst) : Prop := ∃ k, containerStyle i = C k.

Lemma styleFor_styled p : ∃ k, styleFor C p = C k.
Proof. unfold styleFor. repeat case_decide; by eexists. Qed.

Lemma exec_styled e op i : styled i → styled (state (exec C G e op i)).
Proof.
  intros [k Hk]. unfold styled.
  destruct op; try (by exists k);
    try (run_ops; unfold has; repeat case_match; simplify_eq; simpl; by eexists).
  destruct (styleFor_styled (props e)) as [k' Hk']. exists k'. by run_ops.
Qed.

(** From mount on, after any sequence of operations in any
    environments, the container style is an entry of
    [CONTAINER_STYLE_SET]: no operation builds a style of its own. *)
Theorem style_always_from_table (p : Props) (h : list (Env * Op)) :
  styled (exec_all C G h (mount C p)).
Proof.
  assert (styled (mount C p)) as H by apply styleFor_styled.
  revert H. generalize (mount C p). induction h as [|[e op] h IH]; intros i Hi; [done|].
  simpl. apply IH. by apply exec_styled.
Qed.

(** What a library call may be about. *)
Definition call_about (e : Env) (i : Inst) (a : Action) : Prop :=
  match a with
  | CallRender node cfg =>
      containerRef i = Some node ∧ cfg = renderConfig G (props e)
  | CallExecute node cfg =>
      containerRef i = Some node ∧ cfg = renderConfig G (props e) ∧
      r_execution cfg = execute_mode ∧ truthy (widgetId i) = true
  | CallRemove id | CallReset id | CallGetResponse id | CallIsExpired id =>
      id = widgetId i ∧ truthy id = true
  | _ => True
  end.

Definition is_call (a : Action) : bool :=
  match a with
  | CallRender _ _ | CallExecute _ _ | CallRemove _ | CallReset _
  | CallGetResponse _ | CallIsExpired _ => true
  | _ => false
  end.

(** Every operation calls the library at most once, and only about
    this component: [render] and [execute] with the node the container
    ref holds and the configuration built from the current props,
    [execute] only in execution mode ['execute'] with a widget id held,
    and [remove], [reset], [getResponse] and [isExpired] with the stored
    widget id, which is then not empty. *)
Theorem library_calls_are_about_own_widget (e : Env) (op : Op) (i : Inst) :
  (∀ a, a ∈ actions (exec C G e op i) → call_about e i a) ∧
  length (filter is_call (actions (exec C G e op i))) ≤ 1.
Proof.
  split.
  - intros a Ha. destruct op; revert Ha; run_ops; unfold has;
      repeat case_match; simplify_eq; simpl;
      rewrite ?elem_of_cons, ?elem_of_nil; intros Ha;
      repeat (destruct Ha as [Ha|Ha]); subst; simpl; try done;
      repeat split; try done.
    all: try (by destruct (truthy (widgetId i))).
    all: try (match goal with H : o_execution _ = _ |- _ => by rewrite H end).
    all: match goal with
         | H : _ || negb (truthy ?x) || _ = false |- truthy ?x = true =>
             apply orb_false_elim in H as [H _];
             apply orb_false_elim in H as [_ H];
             by apply negb_false_iff in H
         end.
  - destruct op; run_ops; unfold has;
      repeat case_match; simplify_eq; simpl; lia.
Qed.

(** Effect and cleanup as a pair: when a run of the render effect got
    an id from the library, the cleanup it returns asks the library to
    remove exactly that widget; after a [remove()] through the handle
    went through in between, the cleanup calls nothing. *)
Theorem cleanup_removes_what_effect_rendered
    (e e' : Env) (i : Inst) (id : Str) (a : Result unit) :
  is_Some (containerRef i) →
  turnstileLoaded i = true →
  effect_answer G e i = Some (Returns id) →
  truthy id = true →
  cleanup_answer e' (set_widgetId id i) = Some a →
  ∃ k, result (renderWidget G e i) = Returns (Some k) ∧
       let j := state (renderWidget G e i) in
       actions (renderWidget_cleanup e' k j) = [CallRemove id] ∧
       (∀ e2 v, usable t_remove e2 j = true →
          remove_answer e2 j = Some (Returns v) →
          actions (renderWidget_cleanup e' k (state (remove C e2 j))) = []).
Proof.
  intros [node Hc] Hl Ha Ht Hcl.
  unfold effect_answer in Ha. rewrite Hc in Ha.
  destruct (window_turnstile e) as [lib|] eqn:Hlib; [|done]. simpl in Ha.
  destruct (t_render lib) as [f|] eqn:Hf; [|done]. simpl in Ha.
  injection Ha as Ha.
  unfold cleanup_answer in Hcl.
  destruct (window_turnstile e') as [lib'|] eqn:Hlib'; [|done]. simpl in Hcl.
  destruct (t_remove lib') as [g|] eqn:Hg; [|done]. simpl in Hcl.
  injection Hcl as Hcl.
  exists (length (cancelled i)).
  assert (renderWidget G e i =
    (set_widgetId id (set_cancelled (cancelled i ++ [false]) i),
     CallRender node (renderConfig G (props e)) ::
       (if onWidgetLoad (props e) then [HookWidgetLoad id] else []),
     Returns (Some (length (cancelled i))))) as Hrun.
  { unfold renderWidget, renderWidget_render. run_m.
    rewrite Hc, Hl. simpl. rewrite Hc, Hlib, Hf, Ha.
    rewrite lookup_app_r by done. rewrite Nat.sub_diag. simpl. rewrite Ht. simpl.
    by destruct (onWidgetLoad (props e)). }
  rewrite Hrun. split; [done|]. unfold state. simpl. split.
  - unfold renderWidget_cleanup. run_m. rewrite Ht, Hlib', Hg.
    by destruct (g id).
  - intros e2 v Hu Hv. destruct (remove_usable C e2 _ Hu) as (a' & Ha' & Hr).
    rewrite Hv in Ha'. injection Ha' as <-. rewrite Hr.
    unfold renderWidget_cleanup. by run_m.
Qed.

(** The render effect waits, and it does not throw: without a
    container, or before the component is marked loaded, it does nothing
    and returns no cleanup; otherwise it returns its cleanup whatever the
    library does, and when [window.turnstile] has no [render] or
    [render] throws, the stored id is unchanged and the widget-load hook
    is not called. *)
Theorem effect_waits_and_swallows (e : Env) (i : Inst) :
  (containerRef i = None ∨ turnstileLoaded i = false →
     renderWidget G e i = (i, [], Returns None)) ∧
  (is_Some (containerRef i) → turnstileLoaded i = true →
     result (renderWidget G e i) = Returns (Some (length (cancelled i))) ∧
     ((effect_answer G e i = None ∨ ∃ err, effect_answer G e i = Some (Throws err)) →
      widgetId (state (renderWidget G e i)) = widgetId i ∧
      filter WidgetFacts.is_HookWidgetLoad (actions (renderWidget G e i)) = [])).
Proof.
  split.
  - intros [Hc|Hl]; unfold renderWidget; run_m.
    + by rewrite Hc.
    + rewrite Hl. by destruct (containerRef i).
  - intros [node Hc] Hl. unfold effect_answer. rewrite Hc.
    unfold renderWidget, renderWidget_render. run_m.
    rewrite Hc, Hl. simpl. rewrite Hc.
    rewrite lookup_app_r by done. rewrite Nat.sub_diag. simpl.
    destruct (window_turnstile e) as [lib|]; simpl.
    + destruct (t_render lib) as [f|]; simpl.
      * destruct (f node (renderConfig G (props e))) as [id|err]; simpl.
        -- split; [by destruct (truthy id && onWidgetLoad (props e))|].
           intros [?|[? ?]]; done.
        -- split; [done|]. done.
      * split; [done|]. done.
    + split; [done|]. done.
Qed.

(** An option read with [||]: the value given when it is a non-empty
    string, the default when it is missing or empty, so never empty. *)
Definition filled (given : option string) (d result : string) : Prop :=
  result ≠ "" ∧
  (∀ s, given = Some s → s ≠ "" → result = s) ∧
  (given = None ∨ given = Some "" → result = d).

Lemma or_str_filled given d : d ≠ "" → filled given d (or_str given d).
Proof.
  intros Hd. destruct given as [s|]; simpl.
  - destruct (String.eqb s "") eqn:E.
    + apply String.eqb_eq in E as ->. split; [done|]. split; [|done].
      by intros s [= <-].
    + apply String.eqb_neq in E. split; [done|]. split.
      * by intros s' [= <-].
      * intros [|[= ->]]; done.
  - split; [done|]. by split.
Qed.

(** The configuration handed to the library. Theme, language, retry
    and refresh-expired are the option given when that is a non-empty
    string and ['auto'] when it is missing or empty, so never empty; the
    retry interval is the number given when that is not [0] and [8000]
    when it is missing or [0]; execution is ['render'] and appearance
    ['always'] when none is given. The site key is passed as given, the
    size through [getTurnstileSizeOpts], [normal] when none is given. *)
Theorem renderConfig_fills_defaults (p : Props) :
  let c := renderConfig G p in
  let o := options p in
  filled (o_theme o) "auto" (r_theme c) ∧
  filled (o_language o) "auto" (r_language c) ∧
  filled (o_retry o) "auto" (r_retry c) ∧
  filled (o_refreshExpired o) "auto" (r_refresh_expired c) ∧
  r_retry_interval c ≠ 0%N ∧
  (∀ n, o_retryInterval o = Some n → n ≠ 0%N → r_retry_interval c = n) ∧
  (o_retryInterval o = None ∨ o_retryInterval o = Some 0%N →
   r_retry_interval c = 8000%N) ∧
  r_execution c = default render_mode (o_execution o) ∧
  r_appearance c = default always (o_appearance o) ∧
  r_sitekey c = siteKey p ∧
  r_size c = G (default normal (o_size o)).
Proof.
  cbv zeta. unfold renderConfig. cbn [r_theme r_language r_retry r_refresh_expired
    r_retry_interval r_execution r_appearance r_sitekey r_size].
  split; [by apply or_str_filled|]. split; [by apply or_str_filled|].
  split; [by apply or_str_filled|]. split; [by apply or_str_filled|].
  split; [by destruct (o_retryInterval (options p)) as [[|n]|]|].
  split; [intros n -> Hn; by destruct n|].
  split; [by intros [->| ->]|].
  done.
Qed.

End WithUtils.

Lemma handle_inert_without_widget_witness :
  let e := Fixtures.env (Fixtures.lib (Returns (Lit "w2")) (Returns Null) (Returns tt)) None in
  truthy (widgetId (Fixtures.bare None)) = false ∧
  (∃ message,
     getResponse e (Fixtures.bare None)
     = (Fixtures.bare None, [Warn message], Returns Undefined)) ∧
  (∃ message,
     reset Fixtures.styles e (Fixtures.bare None)
     = (Fixtures.bare None, [Warn message], Returns tt)).
Proof.
  split; [reflexivity|].
  destruct (handle_inert_without_widget Fixtures.styles Fixtures.sizeOpts
              (Fixtures.env (Fixtures.lib (Returns (Lit "w2")) (Returns Null) (Returns tt)) None)
              (Fixtures.bare None)) as (Hg & Hr & _).
  - left. reflexivity.
  - split; [exact Hg|exact Hr].
Defined.

Lemma cleanup_removes_what_effect_rendered_witness :
  let e := Fixtures.env (Fixtures.lib (Returns (Lit "w2")) (Returns Null) (Returns tt)) None in
  let i := Fixtures.bare None in
  effect_answer Fixtures.sizeOpts e i = Some (Returns (Lit "w2")) ∧
  ∃ k, result (renderWidget Fixtures.sizeOpts e i) = Returns (Some k) ∧
       actions (renderWidget_cleanup e k (state (renderWidget Fixtures.sizeOpts e i)))
         = [CallRemove (Lit "w2")].
Proof.
  split; [reflexivity|].
  destruct (cleanup_removes_what_effect_rendered Fixtures.styles Fixtures.sizeOpts
              (Fixtures.env (Fixtures.lib (Returns (Lit "w2")) (Returns Null) (Returns tt)) None)
              (Fixtures.env (Fixtures.lib (Returns (Lit "w2")) (Returns Null) (Returns tt)) None)
              (Fixtures.bare None) (Lit "w2") (Returns tt))
    as (k & Hk & Hc & _).
  - eexists. reflexivity.
  - reflexivity.
  - reflexivity.
  - reflexivity.
  - reflexivity.
  - exists k. split; [exact Hk|exact Hc].
Defined.

End ComponentFacts.

(* ===================================================================== *)
(** ** The components waiting for the library                             *)
(* ===================================================================== *)

Module WaiterFacts.
Import Loader LoaderFacts.

(** Equalities of sets up to the laws of union. *)
Ltac sets := apply set_eq; intros ?; set_unfold; tauto.

Section WithUtils.
Variable D : string.

(** The shared promise is never rejected, whatever happens on the
    page: [turnstileLoad.reject] is stored and never called. The promise
    is fulfilled exactly when the status is [ready]. *)
Theorem loader_promise_never_rejected (evs : list Event) :
  let p := run D evs page0 in
  heap p !! turnstileLoadPromise ≠ Some Rejected ∧
  (turnstileState p = ready ↔ heap p !! turnstileLoadPromise = Some Fulfilled).
Proof.
  intros p. destruct (run_consistent D evs) as [_ Hs]. fold p in Hs.
  destruct (turnstileState p).
  - destruct Hs as [_ [rs Hp]]. rewrite Hp. split; [done|]. split; done.
  - destruct Hs as [_ [rs Hp]]. rewrite Hp. split; [done|]. split; done.
  - destruct Hs as [_ Hp]. rewrite Hp. split; [done|]. split; done.
Qed.

(** The page after the first [ensureTurnstile(name)], before the
    script has called [window[name]]. *)
Definition registered (name : string) (p : Page) : Prop :=
  turnstileState p = loading ∧ window p = {[ name := OnLoad name ]} ∧
  (∃ rs, heap p !! turnstileLoadPromise = Some (Pending rs)) ∧
  turnstileLoad p = Some turnstileLoadPromise ∧
  jobs p = [] ∧ turnstileLoaded p = ∅.

Lemma step_registered name e p :
  e ≠ ScriptCalls name → registered name p → registered name (step D e p).
Proof.
  intros He (Hst & Hw & [rs Hp] & Hl & Hj & Ht).
  destruct e as [arg|n|arg inst| |inst sl ht].
  - change (step D (CallEnsureTurnstile arg) p) with (ensureTurnstile D arg p).1.
    rewrite ensureTurnstile_requested by (by rewrite Hst).
    repeat split; try done. by exists rs.
  - simpl. assert (window p !! n = None) as ->.
    { rewrite Hw. apply lookup_singleton_None. congruence. }
    repeat split; try done. by exists rs.
  - rewrite step_AwaitLoaded. rewrite decide_False by (by rewrite Hst).
    rewrite ensureTurnstile_requested by (by rewrite Hst).
    unfold then_. rewrite Hp. repeat split; simpl; try done.
    eexists. apply list_lookup_insert_eq. by eapply lookup_lt_Some.
  - simpl. rewrite Hj. repeat split; try done. by exists rs.
  - destruct (step_FallbackEffect D inst sl ht p) as (E1 & E2 & E3 & E4 & E5 & E6).
    unfold registered. rewrite E1, E2, E3, E4, E5, E6.
    repeat split; try done. by exists rs.
Qed.

(** Only the first caller's callback name counts: after
    [ensureTurnstile(name)] on a fresh page, as long as the script does
    not call [window[name]] (whatever names later callers pass,
    whichever other globals the script calls and whichever fallback
    effects run) the status stays
    [loading], [window] holds that one callback, the promise stays
    pending and no reaction chained on it has run: no component is told
    through the promise that the library has loaded. *)
Theorem only_registered_name_completes (name : string) (evs : list Event) :
  Forall (λ e, e ≠ ScriptCalls name) evs →
  let p := run D (CallEnsureTurnstile (Some name) :: evs) page0 in
  turnstileState p = loading ∧
  window p = {[ name := OnLoad name ]} ∧
  (∃ rs, heap p !! turnstileLoadPromise = Some (Pending rs)) ∧
  turnstileLoaded p = ∅.
Proof.
  intros Hevs.
  assert (registered name (run D (CallEnsureTurnstile (Some name) :: evs) page0)) as H.
  { induction evs as [|e evs IH] using rev_ind.
    - split; [done|]. split; [apply insert_empty|].
      split; [by exists []|]. done.
    - apply Forall_app in Hevs as [Hevs He]. inversion He as [|? ? He' _]; subst.
      rename He' into Hne.
      rewrite app_comm_cons, run_snoc. apply step_registered; [exact Hne|]. by apply IH. }
  destruct H as (? & ? & ? & ? & ? & ?). done.
Qed.

(** The component a reaction belongs to. *)
Definition inst_of (k : Reaction) : nat :=
  match k with SetTurnstileLoaded inst => inst end.

(** The components parked on the pending promise. *)
Definition parked (p : Page) : gset nat :=
  match heap p !! turnstileLoadPromise with
  | Some (Pending rs) => list_to_set (inst_of <$> rs)
  | _ => ∅
  end.

(** The components whose reaction is in the job queue. *)
Definition queued (p : Page) : gset nat := list_to_set (inst_of <$> jobs p).

(** The components whose [waitForTurnstile] ran while the status was
    not yet [ready], along a run. *)
Definition track (acc : Page * gset nat) (e : Event) : Page * gset nat :=
  (step D e acc.1,
   acc.2 ∪ match e with
           | AwaitLoaded _ inst =>
               if decide (turnstileState acc.1 = ready) then ∅ else {[ inst ]}
           | _ => ∅
           end).

Definition waiters (evs : list Event) : gset nat :=
  (foldl track (page0, ∅) evs).2.

Lemma track_run evs : (foldl track (page0, ∅) evs).1 = run D evs page0.
Proof.
  induction evs as [|e evs IH] using rev_ind; [done|].
  rewrite foldl_app, run_snoc. simpl. by rewrite IH.
Qed.

Lemma waiters_snoc evs e :
  waiters (evs ++ [e]) =
    waiters evs ∪ match e with
                  | AwaitLoaded _ inst =>
                      if decide (turnstileState (run D evs page0) = ready) then ∅
                      else {[ inst ]}
                  | _ => ∅
                  end.
Proof. unfold waiters. rewrite foldl_app. simpl. by rewrite track_run. Qed.

Lemma waiters_accounted evs :
  let p := run D evs page0 in
  waiters evs = parked p ∪ queued p ∪ turnstileLoaded p ∧
  (turnstileState p ≠ ready → jobs p = [] ∧ turnstileLoaded p = ∅).
Proof.
  induction evs as [|e evs IH] using rev_ind.
  - split; [|done]. unfold waiters, parked, queued. simpl. sets.
  - simpl in IH. destruct IH as [IHw IHn]. cbv zeta.
    rewrite waiters_snoc, run_snoc.
    pose proof (run_consistent D evs) as Hc.
    set (p := run D evs page0) in *.
    destruct e as [arg|n|arg inst| |inst sl ht].
    + change (step D (CallEnsureTurnstile arg) p) with (ensureTurnstile D arg p).1.
      destruct (decide (turnstileState p = unloaded)) as [Hu|Hu].
      * rewrite ensureTurnstile_unloaded by done. split.
        -- rewrite IHw. unfold parked, queued. simpl. sets.
        -- intros _. simpl. apply IHn. by rewrite Hu.
      * rewrite ensureTurnstile_requested by done. split; [|done].
        rewrite IHw. sets.
    + simpl. destruct (window p !! n) as [[m]|] eqn:Hn.
      * destruct Hc as [Hl Hs].
        destruct (turnstileState p) eqn:Hst.
        -- destruct Hs as [Hw _]. rewrite Hw in Hn. by rewrite lookup_empty in Hn.
        -- destruct Hs as [_ [rs Hp]].
           unfold onLoad_body. rewrite Hl. unfold resolve. rewrite Hp. simpl.
           split; [|done]. rewrite IHw. unfold parked, queued. simpl.
           rewrite Hp.
           assert (<[turnstileLoadPromise:=Fulfilled]> (heap p) !! turnstileLoadPromise
                   = Some Fulfilled) as ->.
           { apply list_lookup_insert_eq. by eapply lookup_lt_Some. }
           rewrite fmap_app, list_to_set_app_L. sets.
        -- destruct Hs as [Hw _]. rewrite Hw in Hn. by rewrite lookup_empty in Hn.
      * split; [|done]. rewrite IHw. sets.
    + rewrite step_AwaitLoaded.
      destruct (decide (turnstileState p = ready)) as [Hr|Hr].
      * split; [|done]. rewrite IHw. sets.
      * pose proof (ensureTurnstile_consistent D arg p Hc) as Hq.
        pose proof (ensureTurnstile_not_ready D arg p Hr) as Hr'.
        assert (heap (ensureTurnstile D arg p).1 = heap p ∧
                jobs (ensureTurnstile D arg p).1 = jobs p ∧
                turnstileLoaded (ensureTurnstile D arg p).1 = turnstileLoaded p)
          as (Eh & Ej & Et).
        { destruct (decide (turnstileState p = unloaded)) as [Hu|Hu].
          - by rewrite ensureTurnstile_unloaded.
          - by rewrite ensureTurnstile_requested. }
        set (q := (ensureTurnstile D arg p).1) in *.
        destruct Hq as [_ Hs].
        assert (∃ rs, heap q !! turnstileLoadPromise = Some (Pending rs)) as [rs Hp].
        { destruct (turnstileState q); [by destruct Hs|by destruct Hs|done]. }
        rewrite then_turnstileState. unfold then_. rewrite Hp. split.
        -- rewrite IHw. unfold parked, queued. simpl.
           rewrite <- Eh, Hp, Ej, Et.
           assert (<[turnstileLoadPromise:=Pending (rs ++ [SetTurnstileLoaded inst])]> (heap q)
                     !! turnstileLoadPromise
                   = Some (Pending (rs ++ [SetTurnstileLoaded inst]))) as ->.
           { apply list_lookup_insert_eq. by eapply lookup_lt_Some. }
           rewrite fmap_app, list_to_set_app_L. simpl. sets.
        -- intros _. simpl. rewrite Ej, Et. by apply IHn.
    + simpl. destruct (jobs p) as [|[i] rest] eqn:Hj.
      * split; [|intros Hr; destruct (IHn Hr); by split].
        rewrite IHw. sets.
      * split.
        -- rewrite IHw. unfold parked, queued. simpl. rewrite Hj. simpl. sets.
        -- simpl. intros Hr. destruct (IHn Hr) as [Hx _]. done.
    + destruct (step_FallbackEffect D inst sl ht p) as (E1 & _ & E3 & _ & E5 & E6).
      unfold parked, queued in *. rewrite E1, E3, E5, E6.
      split; [|done]. rewrite IHw. sets.
Qed.

Lemma drain_jobs p :
  jobs (run D (replicate (length (jobs p)) RunJob) p) = [] ∧
  turnstileState (run D (replicate (length (jobs p)) RunJob) p) = turnstileState p.
Proof.
  remember (length (jobs p)) as n eqn:Hn. revert p Hn.
  induction n as [|n IH]; intros p Hn; simpl.
  - split; [|done]. by destruct (jobs p).
  - destruct (jobs p) as [|[i] rest] eqn:Hj; [done|].
    simpl in Hn. injection Hn as Hn.
    unfold run. simpl.
    apply (IH (set_turnstileLoaded ({[i]} ∪ turnstileLoaded p) (set_jobs rest p))).
    done.
Qed.

(** Every component whose [waitForTurnstile] ran before the status was
    [ready] has its [setTurnstileLoaded(true)] run once the library has
    loaded and the job queue has drained; no other component is told by
    the promise, and none before the status is [ready]. *)
Theorem waiters_are_notified (evs : list Event) :
  let p := run D evs page0 in
  (turnstileState p ≠ ready → jobs p = [] ∧ turnstileLoaded p = ∅) ∧
  (turnstileState p = ready → jobs p = [] → turnstileLoaded p = waiters evs) ∧
  (turnstileState p = ready →
   turnstileLoaded (run D (evs ++ replicate (length (jobs p)) RunJob) page0)
     = waiters evs).
Proof.
  intros p. destruct (waiters_accounted evs) as [Hw Hn]. fold p in Hw, Hn.
  pose proof (run_consistent D evs) as [_ Hs]. fold p in Hs.
  split; [done|]. split.
  - intros Hr Hj. rewrite Hw. unfold parked, queued. rewrite Hr in Hs.
    destruct Hs as [_ ->]. rewrite Hj. simpl. sets.
  - intros Hr.
    set (more := replicate (length (jobs p)) RunJob).
    destruct (waiters_accounted (evs ++ more)) as [Hw' _].
    rewrite run_app in Hw'. fold p in Hw'.
    destruct (drain_jobs p) as [Hj' Hst']. fold more in Hj', Hst'.
    assert (waiters (evs ++ more) = waiters evs) as Heq.
    { clear. subst more. generalize (length (jobs p)) as n.
      induction n as [|n IH]; [by rewrite app_nil_r|].
      replace (S n) with (n + 1) by lia. rewrite replicate_add. simpl.
      rewrite app_assoc, waiters_snoc, IH. sets. }
    rewrite run_app. fold p. rewrite Heq in Hw'. rewrite Hw'.
    pose proof (run_consistent D (evs ++ more)) as [_ Hs'].
    rewrite run_app in Hs'. fold p in Hs'. rewrite Hst', Hr in Hs'.
    destruct Hs' as [_ Hf]. unfold parked, queued. rewrite Hf, Hj'. simpl. sets.
Qed.

End WithUtils.

Lemma only_registered_name_completes_witness :
  let evs := [AwaitLoaded (Some "other") 1; ScriptCalls "other"; RunJob;
              CallEnsureTurnstile (Some "other")] in
  let p := run "onloadTurnstileCallback"
             (CallEnsureTurnstile (Some "first") :: evs) page0 in
  Forall (λ e, e ≠ ScriptCalls "first") evs ∧
  turnstileState p = loading ∧
  window p = {[ "first" := OnLoad "first" ]} ∧
  (∃ rs, heap p !! turnstileLoadPromise = Some (Pending rs)) ∧
  turnstileLoaded p = ∅.
Proof.
  assert (Forall (λ e, e ≠ ScriptCalls "first")
            [AwaitLoaded (Some "other") 1; ScriptCalls "other"; RunJob;
             CallEnsureTurnstile (Some "other")]) as H.
  { repeat constructor; discriminate. }
  split; [exact H|].
  exact (only_registered_name_completes "onloadTurnstileCallback" "first" _ H).
Defined.

End WaiterFacts.

(* ===================================================================== *)
(** ** Timers of the poll, and the poll after the handle                  *)
(* ===================================================================== *)

Module TimerFacts.
Import Js Widget Poll PollFacts.

#[local] Arguments Nat.mul : simpl never.
#[local] Arguments Nat.add : simpl never.
#[local] Arguments Nat.max : simpl never.
#[local] Arguments Nat.ltb : simpl never.
#[local] Arguments host_delay : simpl never.

(** The timers the routine can have armed: at most the time-out timer
    and at most one timer for the next check. *)
Inductive armed : list Timer → Prop :=
| armed_none : armed []
| armed_timeout t : callback t = OnTimeout → armed [t]
| armed_check r : callback r = Resume → armed [r]
| armed_both t r :
    callback t = OnTimeout → callback r = Resume →
    timer_id t ≠ timer_id r → armed [t; r].

Lemma armed_length ts : armed ts → length ts ≤ 2.
Proof. destruct 1; simpl; lia. Qed.

Lemma armed_filter (P : Timer → Prop) `{∀ t, Decision (P t)} ts :
  armed ts → armed (filter P ts).
Proof.
  destruct 1 as [|t Ht|r Hr|t r Ht Hr Hne];
    rewrite ?filter_cons, ?filter_nil; repeat case_decide; by constructor.
Qed.

Section WithWorld.
Variable world : nat → Inst * option Turnstile.
Variables timeout retry : nat.

Local Abbreviation checkLoaded := (Poll.checkLoaded world timeout retry).
Local Abbreviation step := (Poll.step world timeout retry).
Local Abbreviation run := (Poll.run world timeout retry).
Local Abbreviation solved_now := (Poll.solved_now world).
Local Abbreviation pause := (host_delay retry).
Local Abbreviation deadline := (host_delay timeout).

Lemma logs_timers evs s :
  timers (foldl (λ s ev, log ev s) s evs) = timers s ∧
  next_id (foldl (λ s ev, log ev s) s evs) = next_id s ∧
  timeoutId (foldl (λ s ev, log ev s) s evs) = timeoutId s ∧
  now (foldl (λ s ev, log ev s) s evs) = now s.
Proof.
  revert s. induction evs as [|ev evs IH]; intros s; [done|]. simpl.
  by destruct (IH (log ev s)) as (-> & -> & -> & ->).
Qed.

Lemma checkLoaded_solved_timers s :
  solved_now (now s) = true →
  timers (checkLoaded s) = timers (clear_if_set s) ∧
  next_id (checkLoaded s) = next_id s ∧
  timeoutId (checkLoaded s) = timeoutId s.
Proof.
  intros Hsol.
  destruct (checkLoaded_solved world timeout retry s Hsol) as (evs & _ & _ & ->).
  destruct (settle_rest (answer world (now s))
      (foldl (λ s ev, log ev s)
         (clear_if_set (log (GetResponse (widgetId (world (now s)).1))
                            (log (Checked (now s)) s))) evs)) as (_ & -> & -> & -> & _).
  destruct (logs_timers evs
    (clear_if_set (log (GetResponse (widgetId (world (now s)).1))
                       (log (Checked (now s)) s)))) as (-> & -> & -> & _).
  unfold clear_if_set. simpl.
  destruct (timeoutId s) as [[|n]|] eqn:E; simpl; rewrite ?E; done.
Qed.

(** What [checkLoaded] needs of the state it starts from. *)
Record tidy (s : Loop) : Prop := {
  tidy_armed : armed (timers s);
  tidy_sound : sound s;
  tidy_fresh : fresh_ids s;
  tidy_no_check : ∀ t, t ∈ timers s → callback t ≠ Resume;
}.

Lemma checkLoaded_armed s : tidy s → armed (timers (checkLoaded s)).
Proof.
  intros [Ha Hs Hf Hn]. destruct (solved_now (now s)) eqn:Hsol.
  - destruct (checkLoaded_solved_timers s Hsol) as (-> & _).
    unfold clear_if_set. destruct (timeoutId s) as [[|n]|]; try done.
    simpl. by apply armed_filter.
  - rewrite (checkLoaded_unsolved world timeout retry) by done.
    destruct (timeoutId s) as [[|n]|] eqn:Hid.
    + by destruct (sound_set s Hs 0 Hid).
    + simpl. inversion Ha as [E|t Ht E|r Hr E|t r Ht Hr Hne E]; simpl.
      * by constructor.
      * constructor; [done|done|]. simpl.
        assert (t ∈ timers s) as Hin by (rewrite <- E; apply elem_of_cons; by left).
        pose proof (ids_below s Hf t Hin). lia.
      * exfalso. apply (Hn r); [|done]. rewrite <- E. apply elem_of_cons. by left.
      * exfalso. apply (Hn r); [|done]. rewrite <- E.
        apply elem_of_cons. right. apply elem_of_cons. by left.
    + destruct (sound_unset s Hs Hid) as [_ He]. simpl. rewrite He. simpl.
      constructor; simpl; [done|done|lia].
Qed.

Lemma onTimeout_timers s :
  timers (onTimeout s) = timers (clear_if_set s).
Proof.
  unfold onTimeout, reject.
  by destruct (settle_rest (Rejected "Timeout")
                 (log (CallReject "Timeout") (clear_if_set s))) as (_ & -> & _).
Qed.

Lemma next_timer_some ts : ts ≠ [] → is_Some (next_timer ts).
Proof.
  destruct ts as [|t ts]; [done|]. intros _. simpl.
  destruct (next_timer ts) as [u|]; [|by eexists].
  destruct (due u <? due t); by eexists.
Qed.

Lemma step_armed s :
  armed (timers s) → sound s → fresh_ids s → armed (timers (step s)).
Proof.
  intros Ha Hs Hf. unfold Poll.step.
  destruct (next_timer (timers s)) as [u|] eqn:Hu; [|done].
  apply next_timer_elem in Hu.
  set (s' := mkLoop _ _ _ _ _ _).
  assert (sound s') as Hs'.
  { assert (is_Some (timeoutId s)) as [id Hid].
    { destruct (timeoutId s) eqn:Hid; [by eexists|].
      destruct (sound_unset s Hs Hid) as [_ He]. rewrite He in Hu.
      by apply elem_of_nil in Hu. }
    destruct Hs as [H1 H2 H3 H4]. split; simpl.
    - done.
    - intros Hn. by rewrite Hid in Hn.
    - intros id' Hid'. destruct (H3 id' Hid') as (? & ? & Hx).
      split; [done|]. split; [done|].
      intros v [_ Hin]%list_elem_of_filter. by apply Hx.
    - intros Hp. destruct (H4 Hp) as [Hno Hcl]. split; [|done].
      intros v [_ Hin]%list_elem_of_filter. by apply Hno. }
  assert (fresh_ids s') as Hf'.
  { apply (fresh_sub s); [done| |done]. simpl.
    intros v [_ Hin]%list_elem_of_filter. done. }
  assert (armed (timers s')) as Ha' by (simpl; by apply armed_filter).
  destruct (callback u) eqn:Hcb; simpl.
  - rewrite onTimeout_timers. unfold clear_if_set.
    destruct (timeoutId s') as [[|n]|]; try done. simpl. by apply armed_filter.
  - apply checkLoaded_armed. split; try done. simpl.
    intros v [Hne Hin]%list_elem_of_filter Hv.
    inversion Ha as [E|t Ht E|r Hr E|t r Ht Hr Hne' E]; rewrite <- E in Hu, Hin.
    + by apply elem_of_nil in Hin.
    + apply list_elem_of_singleton in Hin. congruence.
    + apply list_elem_of_singleton in Hin, Hu. congruence.
    + apply elem_of_cons in Hin as [->|Hin]; [congruence|].
      apply list_elem_of_singleton in Hin. subst v.
      apply elem_of_cons in Hu as [->|Hu]; [congruence|].
      apply list_elem_of_singleton in Hu. congruence.
Qed.

Lemma run_armed n : armed (timers (run n)).
Proof.
  induction n as [|n IH].
  - apply checkLoaded_armed. split; simpl.
    + constructor.
    + split; simpl; done.
    + split; simpl; [intros t Ht|intros t u Ht]; by apply elem_of_nil in Ht.
    + intros t Ht. by apply elem_of_nil in Ht.
  - simpl. apply step_armed; [done|apply run_sound|apply fresh_run].
Qed.

(** At every turn of the event loop a call of [getResponsePromise] has
    at most two timers armed: at most one for the time-out and at most
    one for the next check. *)
Theorem at_most_two_timers (n : nat) :
  length (timers (run n)) ≤ 2 ∧
  length (filter (λ t, callback t = OnTimeout) (timers (run n))) ≤ 1 ∧
  length (filter (λ t, callback t = Resume) (timers (run n))) ≤ 1.
Proof.
  pose proof (run_armed n) as Ha.
  destruct Ha as [|t Ht|r Hr|t r Ht Hr Hne];
    rewrite ?filter_cons, ?filter_nil; repeat case_decide; simpl; try lia; congruence.
Qed.

Local Abbreviation settles := (Poll.settles world timeout retry).

Lemma step_idle s : timers s = [] → step s = s.
Proof. intros H. unfold Poll.step. by rewrite H. Qed.

(** A promise settled by a check before the time-out leaves nothing
    behind: when check [k], at instant [k * pause], is the first to see
    the widget solved and comes before the time-out timer is due, then
    from that turn on no timer is armed and the state of the routine no
    longer changes. [pause] and [deadline] are the delays the host gives
    [retry] and [timeout]. *)
Theorem settled_by_check_is_quiet (k : nat) :
  k = 0 ∨ k * pause < deadline →
  solved_now (k * pause) = true →
  (∀ j, j < k → solved_now (j * pause) = false) →
  ∀ m, k ≤ m → timers (run m) = [] ∧ run m = run k.
Proof.
  intros Hk Hsol Hbefore.
  assert (timers (run k) = []) as Hq.
  { destruct k as [|k].
    - unfold Poll.run, Poll.start. simpl.
      change (0 * pause) with 0 in Hsol.
      by destruct (checkLoaded_solved_timers (mkLoop 0 [] 1 None Pending []) Hsol)
        as (-> & _).
    - destruct Hk as [|Hk]; [done|].
      assert (waiting timeout retry k (run k)) as Hw.
      { apply run_waiting; [|right; nia].
        intros j Hj. apply Hbefore. lia. }
      replace (S k) with (k + 1) in * by lia.
      replace (run (k + 1)) with (step (run k))
        by (by replace (k + 1) with (S k) by lia).
      rewrite (fire_resume world timeout retry k _ Hw Hk).
      match goal with |- timers (checkLoaded ?s) = _ =>
        destruct (checkLoaded_solved_timers s Hsol) as (-> & _) end.
      unfold clear_if_set. simpl. rewrite filter_cons_False; [done|].
      simpl. intros H. by apply H. }
  intros m Hm. induction Hm as [|m Hm [IH1 IH2]]; [done|].
  simpl. rewrite step_idle by done. done.
Qed.

(** The solved flag alone settles nothing: while the component holds
    no widget id, or [window.turnstile] is missing, every check fails
    and the promise is rejected with [Timeout] when the time-out timer
    fires, at instant [deadline]. *)
Theorem no_widget_times_out :
  (∀ t, truthy (widgetId (world t).1) = false ∨ (world t).2 = None) →
  settles (Rejected "Timeout") deadline.
Proof.
  intros Hno. apply unsolved_times_out.
  intros j _. unfold Poll.solved_now.
  destruct (Hno (j * pause)) as [-> | ->].
  - by rewrite andb_false_r.
  - simpl. by rewrite andb_false_r.
Qed.

End WithWorld.

Section WithComponent.
Variable C : StyleKey → Style.
Variables timeout retry : nat.

(** The component stays as it is while the promise is out. *)
Definition still (i : Inst) (lib : Turnstile) : nat → Inst * option Turnstile :=
  fun _ => (i, Some lib).

(** Success callback and [getResponsePromise] together: once the
    library has called the success callback of a component that holds a
    widget id, a [getResponsePromise] called while nothing else changes
    settles at its first check, at the instant of the call, by what
    [getResponse] answers for the stored id; the token reported to the
    callback plays no part. *)
Theorem promise_after_success
    (e : Env) (token : string) (i : Inst) (lib : Turnstile)
    (f : Str → Result Str) :
  truthy (widgetId i) = true →
  t_getResponse lib = Some f →
  let w := still (state (successCallback e token i)) lib in
  Poll.settles w timeout retry
    (match f (widgetId i) with
     | Returns got =>
         if truthy got then Resolved got else Rejected "No response received"
     | Throws _ => Rejected "Failed to get response"
     end) 0.
Proof.
  intros Ht Hf w.
  assert (widgetId (state (successCallback e token i)) = widgetId i ∧
          widgetSolved (state (successCallback e token i)) = true) as [Hid Hs].
  { unfold successCallback. WidgetFacts.run_m. by destruct (onSuccess (props e)). }
  assert (Poll.solved_now w (0 * host_delay retry) = true) as Hsol.
  { unfold Poll.solved_now, w, still. simpl. rewrite Hs, Hid, Ht. done. }
  pose proof (solved_check_settles w timeout retry 0 (or_introl eq_refl) Hsol) as H.
  unfold answer, getResponse_now, w, still in H. simpl in H.
  rewrite Hf, Hid in H. apply H. intros j Hj. lia.
Qed.

(** [reset()] and [getResponsePromise] together: a [reset()] whose
    guard passed clears the solved flag, so a [getResponsePromise]
    called afterwards, while the challenge is not solved again, is
    rejected with [Timeout] when the time-out timer fires, at the delay
    the host gives [timeout], whether or not the widget was solved
    before and whether or not the external reset threw. *)
Theorem promise_after_reset (e : Env) (i : Inst) (lib : Turnstile) :
  WidgetFacts.usable t_reset e i = true →
  let w := still (state (reset C e i)) lib in
  Poll.settles w timeout retry (Rejected "Timeout") (host_delay timeout).
Proof.
  intros Hu w.
  destruct (WidgetFacts.reset_usable C e i Hu) as (a & _ & Hrun).
  apply unsolved_times_out. intros j _.
  unfold Poll.solved_now, w, still. simpl. rewrite Hrun.
  unfold state. simpl. done.
Qed.

End WithComponent.

Lemma settled_by_check_is_quiet_witness :
  let w := Fixtures.solved_from 3 (Returns (Lit "XYZ")) in
  Poll.solved_now w 4 = true ∧
  ∀ m, 2 ≤ m → timers (Poll.run w 10 2 m) = [] ∧ Poll.run w 10 2 m = Poll.run w 10 2 2.
Proof.
  split; [reflexivity|].
  apply (settled_by_check_is_quiet (Fixtures.solved_from 3 (Returns (Lit "XYZ"))) 10 2 2).
  - right. vm_compute. lia.
  - reflexivity.
  - intros j Hj. destruct j as [|[|j]]; [reflexivity|reflexivity|lia].
Defined.

(** A solved component after a [remove()] elsewhere cleared its id. *)
Definition removed : nat → Inst * option Turnstile :=
  fun t =>
    (mkInst (Some 7) Null true (Fixtures.styles (BySize invisible)) true [false],
     Some (Fixtures.lib (Returns (Lit "w1")) (Returns (Lit "XYZ")) (Returns tt))).

Lemma no_widget_times_out_witness :
  widgetSolved (removed 0).1 = true ∧
  Poll.settles removed 5 2 (Rejected "Timeout") 5.
Proof.
  split; [reflexivity|].
  apply (no_widget_times_out removed 5 2).
  intros t. left. reflexivity.
Defined.

Lemma promise_after_success_witness :
  let lib := Fixtures.lib (Returns (Lit "w1")) (Returns (Lit "XYZ")) (Returns tt) in
  let e := Fixtures.env lib None in
  let i := mkInst (Some 7) (Lit "w1") false (Fixtures.styles (BySize normal)) true [false] in
  truthy (widgetId i) = true ∧
  Poll.settles (still (state (successCallback e "XYZ" i)) lib) 1000 100
    (Resolved (Lit "XYZ")) 0.
Proof.
  split; [reflexivity|].
  apply (promise_after_success 1000 100
           (Fixtures.env (Fixtures.lib (Returns (Lit "w1")) (Returns (Lit "XYZ")) (Returns tt)) None)
           "XYZ"
           (mkInst (Some 7) (Lit "w1") false (Fixtures.styles (BySize normal)) true [false])
           (Fixtures.lib (Returns (Lit "w1")) (Returns (Lit "XYZ")) (Returns tt))
           (fun _ => Returns (Lit "XYZ"))).
  - reflexivity.
  - reflexivity.
Defined.

Lemma promise_after_reset_witness :
  let lib := Fixtures.lib (Returns (Lit "w1")) (Returns (Lit "XYZ")) (Returns tt) in
  let e := Fixtures.env lib None in
  WidgetFacts.usable t_reset e Fixtures.active = true ∧
  widgetSolved Fixtures.active = true ∧
  Poll.settles (still (state (reset Fixtures.styles e Fixtures.active)) lib) 5 2
    (Rejected "Timeout") 5.
Proof.
  split; [reflexivity|]. split; [reflexivity|].
  apply (promise_after_reset Fixtures.styles 5 2
           (Fixtures.env (Fixtures.lib (Returns (Lit "w1")) (Returns (Lit "XYZ")) (Returns tt)) None)
           Fixtures.active
           (Fixtures.lib (Returns (Lit "w1")) (Returns (Lit "XYZ")) (Returns tt))).
  reflexivity.
Defined.

End TimerFacts.

(* ===================================================================== *)
(** ** The element created                                                *)
(* ===================================================================== *)

Module ElementFacts.
Import Js Widget Element.

Lemma rest_without_lookup ks (o : Object) k :
  rest_without ks o !! k = if decide (k ∈ ks) then None else o !! k.
Proof.
  induction ks as [|k' ks IH].
  - unfold rest_without. cbn [foldr].
    destruct (decide (k ∈ [])) as [H|H]; [by apply elem_of_nil in H|done].
  - unfold rest_without in *. cbn [foldr]. destruct (decide (k' = k)) as [->|Hne].
    + rewrite lookup_delete_eq.
      destruct (decide (k ∈ k :: ks)) as [H|H]; [done|].
      exfalso. apply H, elem_of_cons. by left.
    + rewrite lookup_delete_ne by done. rewrite IH.
      destruct (decide (k ∈ ks)) as [H|H], (decide (k ∈ k' :: ks)) as [H'|H'];
        try done.
      * exfalso. apply H', elem_of_cons. by right.
      * exfalso. apply elem_of_cons in H' as [->|?]; done.
Qed.

(** [Component] hands every prop but [as] on to the element it
    creates, under the tag [as] names, or [div] when [as] is missing or
    [undefined]; the element's [ref] is the one forwarded, whatever the
    props say. *)
Lemma Component_forwards (props : Object) (ref : Val) :
  let el := Component props ref in
  (props !! "as" = None ∨ props !! "as" = Some VUndefined → tag el = VStr "div") ∧
  (∀ v, props !! "as" = Some v → v ≠ VUndefined → tag el = v) ∧
  attrs el !! "as" = None ∧
  attrs el !! "ref" = Some ref ∧
  (∀ k, k ≠ "as" → k ≠ "ref" → attrs el !! k = props !! k).
Proof.
  unfold Component, prop_or, prop. simpl. repeat split.
  - by intros [-> | ->].
  - intros v -> Hv. by destruct v.
  - rewrite lookup_insert_ne by done. apply lookup_delete_eq.
  - apply lookup_insert_eq.
  - intros k Has Href. rewrite lookup_insert_ne by done.
    by rewrite lookup_delete_ne.
Qed.

(** The value the last write under a key left. *)
Fixpoint last_entry (k : string) (l : Entries) : option Val :=
  match l with
  | ENil => None
  | ECons k' v l' =>
      match last_entry k l' with
      | Some w => Some w
      | None => if String.eqb k k' then Some v else None
      end
  end.

Lemma entry_keys k l : is_Some (entry k l) ↔ k ∈ keys l.
Proof.
  induction l as [|k' v l IH]; simpl.
  - split; [by intros [? ?]|by intros ?%elem_of_nil].
  - destruct (String.eqb k k') eqn:E.
    + apply String.eqb_eq in E as ->. split; [|by eexists].
      intros _. apply elem_of_cons. by left.
    + apply String.eqb_neq in E. rewrite IH, elem_of_cons.
      split; [by right|intros [?|?]; done].
Qed.

Lemma last_entry_keys k l : is_Some (last_entry k l) ↔ k ∈ keys l.
Proof.
  induction l as [|k' v l IH]; simpl.
  - split; [by intros [? ?]|by intros ?%elem_of_nil].
  - rewrite elem_of_cons. destruct (last_entry k l) as [w|] eqn:El.
    + split; [|by eexists]. intros _. right. apply IH. by eexists.
    + destruct (String.eqb k k') eqn:E.
      * apply String.eqb_eq in E as ->. split; [by left|by eexists].
      * apply String.eqb_neq in E. split; [by intros [? ?]|].
        intros [?|Hin]; [done|]. apply IH in Hin as [? ?]. done.
Qed.

Lemma last_entry_NoDup k l : NoDup (keys l) → last_entry k l = entry k l.
Proof.
  induction l as [|k' v l IH]; simpl; [done|].
  intros [Hnin Hnd]%NoDup_cons. rewrite IH by done.
  destruct (String.eqb k k') eqn:E.
  - apply String.eqb_eq in E as ->.
    destruct (entry k' l) as [w|] eqn:Ew; [|done].
    exfalso. apply Hnin, entry_keys. by eexists.
  - by destruct (entry k l).
Qed.

Lemma entry_put k k' v l :
  entry k (put k' v l) = if String.eqb k k' then Some v else entry k l.
Proof.
  induction l as [|k'' v'' l IH]; simpl.
  - by destruct (String.eqb k k').
  - destruct (String.eqb k' k'') eqn:E; simpl.
    + apply String.eqb_eq in E as ->. by destruct (String.eqb k k'').
    + rewrite IH. destruct (String.eqb k k'') eqn:E2; [|done].
      apply String.eqb_eq in E2 as ->.
      rewrite String.eqb_sym in E. by rewrite E.
Qed.

Lemma keys_put k v l :
  keys (put k v l) = if decide (k ∈ keys l) then keys l else keys l ++ [k].
Proof.
  induction l as [|k' v' l IH].
  - cbn [put keys].
    destruct (decide (k ∈ [])) as [H|H]; [by apply elem_of_nil in H|done].
  - cbn [put keys]. destruct (String.eqb k k') eqn:E; cbn [keys].
    + apply String.eqb_eq in E as ->.
      destruct (decide (k' ∈ k' :: keys l)) as [H|H]; [done|].
      exfalso. apply H, elem_of_cons. by left.
    + apply String.eqb_neq in E. rewrite IH.
      destruct (decide (k ∈ keys l)) as [H|H],
               (decide (k ∈ k' :: keys l)) as [H'|H']; try done.
      * exfalso. apply H', elem_of_cons. by right.
      * exfalso. apply elem_of_cons in H' as [?|?]; done.
Qed.

Lemma put_NoDup k v l : NoDup (keys l) → NoDup (keys (put k v l)).
Proof.
  intros Hnd. rewrite keys_put.
  destruct (decide (k ∈ keys l)) as [|H]; [done|].
  apply NoDup_app. split; [done|]. split; [|apply NoDup_singleton].
  intros x Hx ->%list_elem_of_singleton. done.
Qed.

Lemma entry_assign k acc src :
  entry k (assign acc src) =
    match last_entry k src with Some v => Some v | None => entry k acc end.
Proof.
  revert acc. induction src as [|k' v src IH]; intros acc; simpl; [done|].
  rewrite IH, entry_put. by destruct (last_entry k src), (String.eqb k k').
Qed.

Lemma assign_NoDup acc src : NoDup (keys acc) → NoDup (keys (assign acc src)).
Proof.
  revert acc. induction src as [|k v src IH]; intros acc Hnd; simpl; [done|].
  by apply IH, put_NoDup.
Qed.

(** [{...a, ...b}] holds each key once; a key of [b] carries the value
    [b] gives it, any other key of [a] the value [a] gives it, and there
    is no further key. *)
Lemma spread_later_wins (a b : Val) (k : string) :
  NoDup (keys (spread2 a b)) ∧
  entry k (spread2 a b) =
    match last_entry k (own b) with
    | Some v => Some v
    | None => last_entry k (own a)
    end ∧
  (k ∈ keys (spread2 a b) ↔ k ∈ keys (own a) ∨ k ∈ keys (own b)).
Proof.
  assert (entry k (spread2 a b) =
    match last_entry k (own b) with
    | Some v => Some v
    | None => last_entry k (own a)
    end) as He.
  { unfold spread2. rewrite !entry_assign. simpl.
    by destruct (last_entry k (own b)), (last_entry k (own a)). }
  split; [|split; [done|]].
  - unfold spread2. apply assign_NoDup, assign_NoDup. simpl. constructor.
  - rewrite <- entry_keys, He, <- !last_entry_keys.
    destruct (last_entry k (own b)) as [v|].
    + split; [intros _; right; by eexists|by eexists].
    + split; [by left|]. intros [?|[? ?]]; done.
Qed.

Section WithUtils.
Variable DEFAULT_CONTAINER_ID : string.

(** The value a style of the component carries under a key. *)
Fixpoint style_last (k : string) (s : Style) : option string :=
  match s with
  | [] => None
  | (k', v) :: s' =>
      match style_last k s' with
      | Some w => Some w
      | None => if String.eqb k k' then Some v else None
      end
  end.

Lemma last_entry_style_val k (s : Style) :
  last_entry k (own (style_val s)) = VStr <$> style_last k s.
Proof.
  simpl. induction s as [|[k' v] s IH]; simpl; [done|].
  rewrite IH. destruct (style_last k s); simpl; [done|].
  by destruct (String.eqb k k').
Qed.

(** What [Turnstile] hands to [Container]: none of the props it took
    out for itself; every other prop as given; the id, or the default
    id; the tag; the container style with the given [style] over it. *)
Lemma container_props_forwarded (props : Object) (containerRef : Val)
    (containerStyle : Style) :
  let P := container_props DEFAULT_CONTAINER_ID props containerRef containerStyle in
  (∀ k, k ∈ ["scriptOptions"; "options"; "siteKey"; "onWidgetLoad"; "onSuccess";
             "onExpire"; "onError"; "onBeforeInteractive"; "onAfterInteractive";
             "onUnsupported"; "onLoadScript"; "injectScript"] → P !! k = None) ∧
  (∀ k, k ∉ named → k ≠ "ref" → P !! k = props !! k) ∧
  P !! "id" = Some (if truthy_val (prop props "id") then prop props "id"
                    else VStr DEFAULT_CONTAINER_ID) ∧
  P !! "as" = Some (prop_or props "as" (VStr "div")) ∧
  (∃ merged, P !! "style" = Some (VObj merged) ∧ NoDup (keys merged) ∧
     ∀ k, entry k merged =
            match last_entry k (own (prop props "style")) with
            | Some v => Some v
            | None => VStr <$> style_last k containerStyle
            end) ∧
  (props !! "ref" = None → P !! "ref" = Some containerRef).
Proof.
  unfold container_props. cbv zeta.
  assert (∀ k, k ∈ named → rest_without named props !! k = None) as Hn.
  { intros k Hk. rewrite rest_without_lookup.
    destruct (decide (k ∈ named)); done. }
  assert (∀ k, k ∉ named → rest_without named props !! k = props !! k) as Hr.
  { intros k Hk. rewrite rest_without_lookup.
    destruct (decide (k ∈ named)); done. }
  assert ("id" ∈ named ∧ "as" ∈ named ∧ "style" ∈ named) as (Hid & Has & Hst).
  { repeat split; apply (bool_decide_unpack _); by vm_compute. }
  split; [|split; [|split; [|split; [|split]]]].
  - intros k Hk.
    assert (k ∈ named ∧ k ≠ "ref" ∧ k ≠ "as" ∧ k ≠ "id" ∧ k ≠ "style") as (? & ? & ? & ? & ?).
    { repeat (apply elem_of_cons in Hk as [->|Hk];
              [repeat split; try done; apply (bool_decide_unpack _); by vm_compute|]).
      by apply elem_of_nil in Hk. }
    apply lookup_union_None. split; [by apply Hn|].
    by rewrite !lookup_insert_ne, lookup_empty by done.
  - intros k Hk Href.
    assert (k ≠ "as" ∧ k ≠ "id" ∧ k ≠ "style") as (? & ? & ?).
    { repeat split; intros ->; by apply Hk. }
    destruct (props !! k) as [v|] eqn:Hv.
    + apply lookup_union_Some_l. by rewrite Hr.
    + apply lookup_union_None. split; [by rewrite Hr|].
      by rewrite !lookup_insert_ne, lookup_empty by done.
  - rewrite lookup_union_r by by apply Hn.
    by rewrite !lookup_insert_ne, lookup_insert_eq by done.
  - rewrite lookup_union_r by by apply Hn.
    by rewrite !lookup_insert_ne, lookup_insert_eq by done.
  - exists (spread2 (style_val containerStyle) (prop props "style")). split; [|split].
    + rewrite lookup_union_r by by apply Hn.
      by rewrite !lookup_insert_ne, lookup_insert_eq by done.
    + by destruct (spread_later_wins (style_val containerStyle) (prop props "style") "").
    + intros k.
      destruct (spread_later_wins (style_val containerStyle) (prop props "style") k)
        as (_ & -> & _).
      by rewrite last_entry_style_val.
  - intros Href. rewrite lookup_union_r.
    + by rewrite lookup_insert_eq.
    + rewrite Hr; [done|]. intros H.
      apply (bool_decide_pack _) in H. by vm_compute in H.
Qed.

(** The element a [Turnstile] ends in. Its tag is [as], [div] when
    none is given; its id is the given [id], the default id when that is
    missing or empty; its style holds every key once, a key of the given
    [style] with the value given and any other key of the container
    style with the container's value; the props [Turnstile] takes for
    itself, and [as], do not reach the element; every other prop does,
    unchanged. Between [Turnstile] and [Component] stands [forwardRef]
    of hono, which moves [ref] from the props to the second argument:
    [Q] is what [Component] receives, equal on every key but [ref] to
    what [Turnstile] passed. *)
Theorem turnstile_element (props Q : Object) (containerRef ref : Val)
    (containerStyle : Style) :
  (∀ k, k ≠ "ref" →
     Q !! k = container_props DEFAULT_CONTAINER_ID props containerRef containerStyle !! k) →
  let el := Component Q ref in
  tag el = prop_or props "as" (VStr "div") ∧
  attrs el !! "as" = None ∧
  attrs el !! "ref" = Some ref ∧
  attrs el !! "id" = Some (or_else (prop props "id") (VStr DEFAULT_CONTAINER_ID)) ∧
  (∃ merged, attrs el !! "style" = Some (VObj merged) ∧ NoDup (keys merged) ∧
     ∀ k, entry k merged =
            match last_entry k (own (prop props "style")) with
            | Some v => Some v
            | None => VStr <$> style_last k containerStyle
            end) ∧
  (∀ k, k ∈ ["scriptOptions"; "options"; "siteKey"; "onWidgetLoad"; "onSuccess";
             "onExpire"; "onError"; "onBeforeInteractive"; "onAfterInteractive";
             "onUnsupported"; "onLoadScript"; "injectScript"] →
        attrs el !! k = None) ∧
  (∀ k, k ∉ named → k ≠ "ref" → attrs el !! k = props !! k).
Proof.
  intros HQ.
  destruct (container_props_forwarded props containerRef containerStyle)
    as (Hc & Hp & Hid & Has & (merged & Hst & Hnd & Hm) & _).
  destruct (Component_forwards Q ref) as (_ & Htag & Hnoas & Href & Hrest).
  assert (∀ k, k ≠ "as" → k ≠ "ref" →
            attrs (Component Q ref) !! k
            = container_props DEFAULT_CONTAINER_ID props containerRef containerStyle !! k)
    as Hk.
  { intros k H1 H2. rewrite Hrest by done. by apply HQ. }
  cbv zeta. split; [|split; [|split; [|split; [|split; [|split]]]]].
  - apply Htag.
    + by rewrite HQ, Has.
    + unfold prop_or. by destruct (prop props "as").
  - done.
  - done.
  - by rewrite Hk, Hid.
  - exists merged. split; [by rewrite Hk, Hst|done].
  - intros k Hin.
    assert (k ≠ "as" ∧ k ≠ "ref") as [? ?].
    { repeat (apply elem_of_cons in Hin as [->|Hin]; [by split|]).
      by apply elem_of_nil in Hin. }
    rewrite Hk by done. by apply Hc.
  - intros k Hn Href'.
    assert (k ≠ "as").
    { intros ->. apply Hn. apply (bool_decide_unpack _). by vm_compute. }
    rewrite Hk by done. by apply Hp.
Qed.

End WithUtils.

Lemma turnstile_element_witness :
  let props : Object :=
    <["siteKey" := VStr "key"]>
      (<["class" := VStr "box"]>
         (<["style" := VObj (ECons "width" (VStr "100%") ENil)]> ∅)) in
  let P := container_props "cf-turnstile" props (VFun 0) (Fixtures.styles (BySize normal)) in
  let el := Component P (VFun 0) in
  tag el = VStr "div" ∧
  attrs el !! "id" = Some (VStr "cf-turnstile") ∧
  attrs el !! "siteKey" = None ∧
  attrs el !! "class" = Some (VStr "box").
Proof.
  pose proof (turnstile_element "cf-turnstile"
    (<["siteKey" := VStr "key"]>
      (<["class" := VStr "box"]>
         (<["style" := VObj (ECons "width" (VStr "100%") ENil)]> ∅)))
    (container_props "cf-turnstile"
       (<["siteKey" := VStr "key"]>
         (<["class" := VStr "box"]>
            (<["style" := VObj (ECons "width" (VStr "100%") ENil)]> ∅)))
       (VFun 0) (Fixtures.styles (BySize normal)))
    (VFun 0) (VFun 0) (Fixtures.styles (BySize normal))
    (fun k _ => eq_refl)) as (Htag & _ & _ & Hid & _ & Hnone & Hpass).
  split; [exact Htag|]. split; [exact Hid|]. split.
  - apply Hnone. apply (bool_decide_unpack _). vm_compute. reflexivity.
  - rewrite Hpass.
    + reflexivity.
    + intros H. apply (bool_decide_pack _) in H. vm_compute in H. exact H.
    + discriminate.
Defined.

End ElementFacts.
